(** * rag-example: the in-memory vector store and the text chunker of main.go

    A shallow embedding of [cosineSim], [sqrt], [vectorStore.add],
    [vectorStore.retrieveTopK] and [chunkText], and the properties of them
    that the specification states.

    Conventions.
    - Go's [float32] is IEEE-754 binary32.  It is modelled by the Standard
      Library's [spec_float] at precision 24 and maximal exponent 128, with
      round-to-nearest-even operations.  A NaN carries no payload there, so
      equality of two results means "the same IEEE datum, or both NaN".
      Each [+=] of the source is modelled as a rounded product followed by a
      rounded sum (no fused multiply-add).
    - Go's [int] is modelled by [Z]; the only integers that occur are lengths,
      loop counters bounded by lengths, and the arguments [k] and [maxLen],
      which are only compared.
    - Go's [string] is a sequence of bytes: [String.string], whose [length]
      is the byte count that Go's [len] returns.
    - A run-time panic (index out of range) is the result [None]. *)

From Stdlib Require Import Strings.String Strings.Ascii.
From Stdlib Require Import ZArith List Bool Lia.
From Stdlib Require Import Sorting.Permutation Sorting.Sorted.
From Stdlib Require Import Floats.SpecFloat.
Import ListNotations.

(* ================================================================== *)
(** ** float32 *)

Module float32.

Definition t : Type := spec_float.

Definition prec : Z := 24.
Definition emax : Z := 128.

(** The zero value of a [var x float32]. *)
Definition zero : t := S754_zero false.

Definition add : t -> t -> t := SFadd prec emax.
Definition mul : t -> t -> t := SFmul prec emax.
Definition div : t -> t -> t := SFdiv prec emax.

(** [x > y]; false as soon as one side is NaN. *)
Definition gt (x y : t) : bool := SFltb y x.
(** [x >= y]; false as soon as one side is NaN. *)
Definition ge (x y : t) : bool := SFleb y x.
Definition is_nan (x : t) : bool :=
  match x with S754_nan => true | _ => false end.

(** Neither NaN nor an infinity. *)
Definition is_finite (x : t) : bool :=
  match x with S754_zero _ | S754_finite _ _ _ => true | _ => false end.

(** [+0] or [-0]. *)
Definition is_zero (x : t) : bool :=
  match x with S754_zero _ => true | _ => false end.

(** [float64(x)]: exact, the mantissa is only re-aligned to 53 bits. *)
Definition to_float64 (x : t) : spec_float :=
  match x with
  | S754_finite s m e => binary_round 53 1024 s m e
  | _ => x
  end.

(** [float32(y)] for a float64 [y]: rounded to nearest even. *)
Definition of_float64 (y : spec_float) : t :=
  match y with
  | S754_finite s m e => binary_round prec emax s m e
  | _ => y
  end.

(** The float32 nearest to [m * 2^e], for writing constants. *)
Definition of_Z2 (m e : Z) : t := binary_normalize prec emax m e false.
Definition of_Z (m : Z) : t := of_Z2 m 0.

End float32.

Abbreviation float32 := float32.t.

(** [math.Sqrt] on float64, correctly rounded. *)
Definition math_Sqrt (x : spec_float) : spec_float := SFsqrt 53 1024 x.

(** [func sqrt(x float32) float32 { return float32(math.Sqrt(float64(x))) }] *)
Definition sqrt (x : float32) : float32 :=
  float32.of_float64 (math_Sqrt (float32.to_float64 x)).

(* ================================================================== *)
(** ** cosineSim *)

(** The three accumulators [dot], [normA], [normB] of [cosineSim]. *)
Record sums : Type := mkSums { dot : float32; normA : float32; normB : float32 }.

Definition sums0 : sums := mkSums float32.zero float32.zero float32.zero.

(** One iteration of the loop body, with [ai = a[i]] and [bi = b[i]]. *)
Definition cosineSim_step (acc : sums) (ai bi : float32) : sums :=
  mkSums (float32.add (dot acc) (float32.mul ai bi))
         (float32.add (normA acc) (float32.mul ai ai))
         (float32.add (normB acc) (float32.mul bi bi)).

(** [for i := range a { ... b[i] ... }], started at index [i] with the
    elements of [a] from [i] on: the index runs over [a] alone, and [b[i]]
    panics once [i] reaches [len(b)]. *)
Fixpoint cosineSim_loop (a_rest : list float32) (i : nat) (b : list float32)
    (acc : sums) : option sums :=
  match a_rest with
  | [] => Some acc
  | ai :: a_rest' =>
      match nth_error b i with
      | None => None
      | Some bi => cosineSim_loop a_rest' (S i) b (cosineSim_step acc ai bi)
      end
  end.

(** [return dot / (sqrt(normA) * sqrt(normB))] *)
Definition cosineSim_result (acc : sums) : float32 :=
  float32.div (dot acc) (float32.mul (sqrt (normA acc)) (sqrt (normB acc))).

Definition cosineSim (a b : list float32) : option float32 :=
  match cosineSim_loop a 0 b sums0 with
  | None => None
  | Some acc => Some (cosineSim_result acc)
  end.

(** *** The formula of the specification

    [dot(a,b) / (‖a‖ · ‖b‖)] over the two vectors cut to the shorter length.
    These definitions follow the words of the specification; the theorems
    below compare [cosineSim] with them. *)

Definition dot_product (a b : list float32) : float32 :=
  fold_left (fun d p => float32.add d (float32.mul (fst p) (snd p)))
            (combine a b) float32.zero.

Definition sum_squares (v : list float32) : float32 :=
  fold_left (fun n x => float32.add n (float32.mul x x)) v float32.zero.

Definition cosine_formula (a b : list float32) : float32 :=
  float32.div (dot_product a b)
              (float32.mul (sqrt (sum_squares a)) (sqrt (sum_squares b))).

Definition truncated_cosine (a b : list float32) : float32 :=
  let n := Nat.min (length a) (length b) in
  cosine_formula (firstn n a) (firstn n b).

(** The mathematical norm of [v] is zero: every component is [+0] or [-0]. *)
Definition zero_vector (v : list float32) : Prop :=
  Forall (fun x => float32.is_zero x = true) v.

(* ------------------------------------------------------------------ *)
(** *** Facts about the float32 operations *)

Lemma float32_mul_comm (x y : float32) : float32.mul x y = float32.mul y x.
Proof.
  unfold float32.mul.
  destruct x as [sx|sx| |sx mx ex], y as [sy|sy| |sy my ey]; simpl;
    try reflexivity; try (now rewrite xorb_comm).
  now rewrite xorb_comm, Pos.mul_comm, Z.add_comm.
Qed.

Lemma float32_square_zero (x : float32) :
  float32.is_zero x = true -> float32.mul x x = float32.zero.
Proof. destruct x as [[|]| | |]; simpl; intros; try discriminate; reflexivity. Qed.

(** A product with a zero factor is a zero or, against an infinity or a NaN,
    NaN: never a non-zero number. *)
Lemma float32_mul_zero_l (x y : float32) :
  float32.is_zero x = true ->
  float32.is_zero (float32.mul x y) = true \/ float32.mul x y = S754_nan.
Proof. destruct x, y; simpl; intros; try discriminate; auto. Qed.

Lemma float32_mul_zero_r (x y : float32) :
  float32.is_zero y = true ->
  float32.is_zero (float32.mul x y) = true \/ float32.mul x y = S754_nan.
Proof. rewrite float32_mul_comm. apply float32_mul_zero_l. Qed.

(** The unguarded division: by a zero it gives an infinity or NaN, by NaN it
    gives NaN. *)
Lemma float32_div_by_zero_or_nan (x d : float32) :
  float32.is_zero d = true \/ d = S754_nan ->
  float32.is_finite (float32.div x d) = false.
Proof.
  intros [H | ->].
  - destruct x, d; simpl in *; congruence.
  - destruct x; reflexivity.
Qed.

Lemma sqrt_zero : sqrt float32.zero = float32.zero.
Proof. reflexivity. Qed.

(* ------------------------------------------------------------------ *)
(** *** The loop of cosineSim *)

Lemma skipn_nth_error_cons {A : Type} (l : list A) :
  forall i x, nth_error l i = Some x -> skipn i l = x :: skipn (S i) l.
Proof.
  induction l as [|y l IH]; intros [|i] x H; simpl in *; try discriminate.
  - now injection H as ->.
  - now apply IH.
Qed.

Lemma cosineSim_loop_defined (a : list float32) :
  forall i b acc,
    i + length a <= length b ->
    cosineSim_loop a i b acc =
    Some (fold_left (fun s p => cosineSim_step s (fst p) (snd p))
                    (combine a (skipn i b)) acc).
Proof.
  induction a as [|ai a IH]; intros i b acc Hlen; simpl in *.
  - reflexivity.
  - destruct (nth_error b i) as [bi|] eqn:Hb.
    + rewrite IH by lia.
      now rewrite (skipn_nth_error_cons b i bi Hb).
    + apply nth_error_None in Hb. lia.
Qed.

Lemma cosineSim_loop_panics (a : list float32) :
  forall i b acc,
    i <= length b -> length b < i + length a ->
    cosineSim_loop a i b acc = None.
Proof.
  induction a as [|ai a IH]; intros i b acc Hi Hlen; simpl in *.
  - lia.
  - destruct (nth_error b i) as [bi|] eqn:Hb.
    + assert (i < length b) by (apply nth_error_Some; congruence).
      apply IH; lia.
    + reflexivity.
Qed.

(** The three accumulators evolve independently of each other. *)
Lemma fold_cosineSim_step (a : list float32) :
  forall b acc,
    fold_left (fun s p => cosineSim_step s (fst p) (snd p)) (combine a b) acc =
    mkSums
      (fold_left (fun d p => float32.add d (float32.mul (fst p) (snd p)))
                 (combine a b) (dot acc))
      (fold_left (fun n x => float32.add n (float32.mul x x))
                 (firstn (length b) a) (normA acc))
      (fold_left (fun n x => float32.add n (float32.mul x x))
                 (firstn (length a) b) (normB acc)).
Proof.
  induction a as [|ai a IH]; intros [|bi b] acc; simpl;
    try (now destruct acc).
Qed.

Lemma combine_firstn_min {A B : Type} (a : list A) (b : list B) :
  combine (firstn (Nat.min (length a) (length b)) a)
          (firstn (Nat.min (length a) (length b)) b) = combine a b.
Proof.
  rewrite <- combine_firstn, <- length_combine. apply firstn_all.
Qed.

Lemma firstn_min_l {A : Type} (a b : list A) :
  firstn (Nat.min (length a) (length b)) a = firstn (length b) a.
Proof.
  destruct (Nat.le_ge_cases (length a) (length b)) as [H | H].
  - rewrite Nat.min_l by assumption. now rewrite firstn_all, firstn_all2.
  - now rewrite Nat.min_r.
Qed.

Lemma firstn_min_r {A : Type} (a b : list A) :
  firstn (Nat.min (length a) (length b)) b = firstn (length a) b.
Proof. rewrite Nat.min_comm. apply firstn_min_l. Qed.

(** Whenever [a] is not longer than [b], [cosineSim] returns the formula on
    the vectors cut to [len(a)]. *)
Lemma cosineSim_defined (a b : list float32) :
  length a <= length b -> cosineSim a b = Some (truncated_cosine a b).
Proof.
  intros Hlen. unfold cosineSim.
  rewrite cosineSim_loop_defined by (simpl; lia).
  simpl skipn. rewrite fold_cosineSim_step.
  unfold truncated_cosine, cosine_formula, cosineSim_result,
    dot_product, sum_squares. simpl.
  now rewrite combine_firstn_min, firstn_min_l, firstn_min_r.
Qed.

(** Whenever [a] is longer than [b], [b[len(b)]] is out of range. *)
Lemma cosineSim_panics (a b : list float32) :
  length b < length a -> cosineSim a b = None.
Proof.
  intros Hlen. unfold cosineSim.
  now rewrite cosineSim_loop_panics by (simpl; lia).
Qed.

Lemma sum_squares_zero_vector (v : list float32) :
  zero_vector v -> sum_squares v = float32.zero.
Proof.
  unfold sum_squares. induction 1 as [|x v Hx _ IH]; simpl.
  - reflexivity.
  - rewrite (float32_square_zero x Hx). exact IH.
Qed.

Lemma zero_vector_firstn (n : nat) (v : list float32) :
  zero_vector v -> zero_vector (firstn n v).
Proof.
  unfold zero_vector. intros H. revert n.
  induction H as [|x v Hx _ IH]; intros [|n]; simpl; constructor; auto.
Qed.

Lemma dot_product_comm (a b : list float32) :
  dot_product a b = dot_product b a.
Proof.
  unfold dot_product. generalize float32.zero.
  revert b. induction a as [|ai a IH]; intros [|bi b] acc; simpl;
    try reflexivity.
  rewrite (float32_mul_comm ai bi). apply IH.
Qed.

Lemma cosine_formula_comm (a b : list float32) :
  cosine_formula a b = cosine_formula b a.
Proof.
  unfold cosine_formula.
  now rewrite dot_product_comm, float32_mul_comm.
Qed.

(* ================================================================== *)
(** ** The library functions used by chunkText *)

Local Open Scope string_scope.
Local Open Scope Z_scope.
Local Open Scope list_scope.

Module strings.

(** The six bytes of the table [asciiSpace] of package strings:
    tab, line feed, vertical tab, form feed, carriage return, space. *)
Definition asciiSpace (c : ascii) : bool :=
  match N_of_ascii c with
  | 9%N | 10%N | 11%N | 12%N | 13%N | 32%N => true
  | _ => false
  end.

(** [fields_from s field]: the fields of [s], where [field] holds the bytes
    of the field under way. *)
Fixpoint fields_from (s field : string) : list string :=
  match s with
  | EmptyString =>
      match field with EmptyString => [] | _ => [field] end
  | String c s' =>
      if asciiSpace c
      then match field with
           | EmptyString => fields_from s' EmptyString
           | _ => field :: fields_from s' EmptyString
           end
      else fields_from s' (field ++ String c EmptyString)%string
  end.

(** [strings.Fields] on its ASCII path: the maximal runs of bytes that are
    not in [asciiSpace].  On a text with bytes above 0x7f the library
    decodes UTF-8 and also splits at the Unicode spaces (U+0085, U+00A0,
    U+2028, ...); that path is not modelled, and [chunkText] below is
    parametric in the tokenizer for this reason. *)
Definition Fields (s : string) : list string := fields_from s EmptyString.

(** [strings.Join(elems, sep)] *)
Fixpoint Join (elems : list string) (sep : string) : string :=
  match elems with
  | [] => EmptyString
  | [e] => e
  | e :: rest => (e ++ sep ++ Join rest sep)%string
  end.

End strings.

(** [len(s)] of a string, as a Go [int]. *)
Definition len_string (s : string) : Z := Z.of_nat (String.length s).

(** [len(x)] of a slice, as a Go [int]. *)
Definition len {A : Type} (x : list A) : Z := Z.of_nat (length x).

(* ================================================================== *)
(** ** chunkText *)

Section ChunkText.

(** The tokenizer, [strings.Fields] in the source. *)
Variable Fields : string -> list string.

(** The body of [for _, word := range words], on the loop state
    [(chunks, buf)]. *)
Definition chunkText_step (maxLen : Z) (st : list string * list string)
    (word : string) : list string * list string :=
  let '(chunks, buf) := st in
  let testBuf := buf ++ [word] in
  let testChunk := strings.Join testBuf " " in
  if (len_string testChunk >? maxLen) && (len buf >? 0)
  then (chunks ++ [strings.Join buf " "], [word])
  else (chunks, buf ++ [word]).

Fixpoint chunkText_loop (maxLen : Z) (words : list string)
    (st : list string * list string) : list string * list string :=
  match words with
  | [] => st
  | word :: rest => chunkText_loop maxLen rest (chunkText_step maxLen st word)
  end.

Definition chunkText (text : string) (maxLen : Z) : list string :=
  if maxLen <=? 0 then Fields text
  else
    let words := Fields text in
    if len words =? 0 then []
    else
      let '(chunks, buf) := chunkText_loop maxLen words ([], []) in
      if len buf >? 0 then chunks ++ [strings.Join buf " "] else chunks.

End ChunkText.

(* ------------------------------------------------------------------ *)
(** *** Facts about strings.Fields *)






(* ------------------------------------------------------------------ *)
(** *** Facts about strings.Join *)

Lemma string_append_assoc (x y z : string) :
  ((x ++ y) ++ z)%string = (x ++ (y ++ z))%string.
Proof. induction x as [|c x IH]; simpl; [reflexivity | now rewrite IH]. Qed.

Lemma Join_cons (e : string) (rest : list string) (sep : string) :
  rest <> [] ->
  strings.Join (e :: rest) sep = (e ++ sep ++ strings.Join rest sep)%string.
Proof. destruct rest; [congruence | reflexivity]. Qed.

Lemma Join_app (xs ys : list string) (sep : string) :
  xs <> [] -> ys <> [] ->
  strings.Join (xs ++ ys) sep =
  (strings.Join xs sep ++ sep ++ strings.Join ys sep)%string.
Proof.
  intros Hxs Hys. induction xs as [|x xs IH]; [congruence|].
  destruct xs as [|x' xs].
  - simpl app. now apply Join_cons.
  - change ((x :: x' :: xs) ++ ys) with (x :: ((x' :: xs) ++ ys)).
    rewrite Join_cons by discriminate.
    rewrite IH by discriminate.
    rewrite (Join_cons x (x' :: xs)) by discriminate.
    now rewrite !string_append_assoc.
Qed.

Lemma concat_nonempty {A : Type} (g : list A) (gs : list (list A)) :
  g <> [] -> concat (g :: gs) <> [].
Proof. destruct g; simpl; congruence. Qed.

(** Joining the joined groups is joining all the words, as long as no group
    is empty. *)
Lemma Join_concat (gs : list (list string)) (sep : string) :
  Forall (fun g => g <> []) gs ->
  strings.Join (map (fun g => strings.Join g sep) gs) sep =
  strings.Join (concat gs) sep.
Proof.
  induction 1 as [|g gs Hg Hgs IH]; [reflexivity|].
  destruct gs as [|g' gs].
  - simpl. now rewrite app_nil_r.
  - change (map (fun g => strings.Join g sep) (g :: g' :: gs))
      with (strings.Join g sep :: map (fun g => strings.Join g sep) (g' :: gs)).
    rewrite Join_cons by discriminate.
    rewrite IH.
    change (concat (g :: g' :: gs)) with (g ++ concat (g' :: gs)).
    rewrite Join_app; auto.
    apply concat_nonempty. now inversion Hgs.
Qed.

(* ------------------------------------------------------------------ *)
(** *** The loop of chunkText *)

Lemma Z_gtb_false (x y : Z) : (x >? y) = false -> x <= y.
Proof. rewrite Z.gtb_ltb. apply Z.ltb_ge. Qed.

Lemma len_nil_iff {A : Type} (x : list A) : len x <= 0 <-> x = [].
Proof.
  unfold len. destruct x; simpl; split; intros H;
    try reflexivity; try discriminate; lia.
Qed.

Section ChunkTextLoop.

Variable maxLen : Z.

Definition join_words (g : list string) : string := strings.Join g " ".

(** A finished group of words: it is not empty, and it fits in [maxLen]
    unless it is a single word. *)
Definition good_group (g : list string) : Prop :=
  g <> [] /\
  (len_string (join_words g) <= maxLen \/ exists w, g = [w]).

(** The loop invariant after the words [done]: the chunks are the joined
    groups [gs], no word was lost or moved, and the buffer is empty or a
    good group. *)
Definition chunk_inv (done : list string)
    (st : list string * list string) : Prop :=
  exists gs : list (list string),
    fst st = map join_words gs /\
    concat gs ++ snd st = done /\
    Forall good_group gs /\
    (snd st = [] \/ good_group (snd st)).

Lemma chunk_inv_init : chunk_inv [] ([], []).
Proof. exists []. simpl. auto. Qed.

Lemma chunk_inv_step done st word :
  chunk_inv done st ->
  chunk_inv (done ++ [word]) (chunkText_step maxLen st word).
Proof.
  destruct st as [chunks buf].
  intros (gs & Hchunks & Hdone & Hgs & Hbuf). simpl in *.
  unfold chunkText_step.
  destruct (len_string (strings.Join (buf ++ [word]) " ") >? maxLen) eqn:Hlen;
    destruct (len buf >? 0) eqn:Hbuf0; simpl.
  - (* the buffer is closed off and restarted with [word] *)
    assert (Hne : buf <> []).
    { intros ->. discriminate. }
    destruct Hbuf as [-> | Hgood]; [congruence|].
    exists (gs ++ [buf]). simpl. repeat split.
    + now rewrite map_app, Hchunks.
    + rewrite concat_app. simpl. rewrite app_nil_r, <- Hdone.
      now rewrite <- app_assoc.
    + apply Forall_app. split; [assumption | now constructor].
    + right. split; [discriminate | right; now exists word].
  - (* the buffer was empty: the word is taken whatever its length *)
    assert (buf = []) as -> by (now apply len_nil_iff, Z_gtb_false).
    exists gs. simpl. repeat split; auto.
    + now rewrite <- Hdone, app_nil_r.
    + right. split; [discriminate | right; now exists word].
  - exists gs. simpl. repeat split; auto.
    + now rewrite <- Hdone, app_assoc.
    + right. split.
      * destruct buf; discriminate.
      * left. now apply Z_gtb_false.
  - exists gs. simpl. repeat split; auto.
    + now rewrite <- Hdone, app_assoc.
    + right. split.
      * destruct buf; discriminate.
      * left. now apply Z_gtb_false.
Qed.

Lemma chunk_inv_loop words :
  forall done st,
    chunk_inv done st ->
    chunk_inv (done ++ words) (chunkText_loop maxLen words st).
Proof.
  induction words as [|word words IH]; intros done st Hinv; simpl.
  - now rewrite app_nil_r.
  - replace (done ++ word :: words) with ((done ++ [word]) ++ words)
      by (now rewrite <- app_assoc).
    apply IH. now apply chunk_inv_step.
Qed.

End ChunkTextLoop.

Lemma good_group_nonempty maxLen (gs : list (list string)) :
  Forall (good_group maxLen) gs -> Forall (fun g => g <> []) gs.
Proof. apply Forall_impl. now intros g [Hne _]. Qed.

(** For a positive [maxLen] the result of [chunkText] is a grouping of the
    words of the text, in order, each group joined with single spaces. *)
Lemma chunkText_groups (Fields : string -> list string) (text : string)
    (maxLen : Z) :
  0 < maxLen ->
  exists gs : list (list string),
    chunkText Fields text maxLen = map join_words gs /\
    concat gs = Fields text /\
    Forall (good_group maxLen) gs.
Proof.
  intros Hpos. unfold chunkText.
  destruct (maxLen <=? 0) eqn:Hle; [apply Z.leb_le in Hle; lia|].
  destruct (len (Fields text) =? 0) eqn:Hwords.
  - exists []. repeat split; auto.
    apply Z.eqb_eq in Hwords. unfold len in Hwords.
    destruct (Fields text); [reflexivity | simpl in Hwords; lia].
  - pose proof (chunk_inv_loop maxLen (Fields text) [] ([], [])
                  (chunk_inv_init maxLen)) as Hinv.
    simpl in Hinv.
    destruct (chunkText_loop maxLen (Fields text) ([], [])) as [chunks buf].
    destruct Hinv as (gs & Hchunks & Hdone & Hgs & Hbuf). simpl in *.
    destruct buf as [|w buf].
    + exists gs. rewrite app_nil_r in Hdone. auto.
    + destruct Hbuf as [Hbuf | Hbuf]; [discriminate|].
      exists (gs ++ [w :: buf]). repeat split.
      * unfold len. simpl length. rewrite map_app, Hchunks. reflexivity.
      * rewrite concat_app. simpl. now rewrite app_nil_r.
      * apply Forall_app. split; [assumption | now constructor].
Qed.

(* ================================================================== *)
(** ** sort.Slice *)

Module sort.

Section Ordering.

Variable A : Type.
Variable less : A -> A -> bool.

(** The requirement package sort puts on [less]: a strict ordering that
    is transitive both ways ("if both Less(i, j) and Less(j, k) are
    true, then Less(i, k) must be true as well; if both are false, then
    Less(i, k) must be false as well").  [S] holds of the elements of
    the slice. *)
Record transitive_ordering (S : A -> Prop) : Prop := {
  less_irrefl : forall x, S x -> less x x = false;
  less_trans : forall x y z, S x -> S y -> S z ->
    less x y = true -> less y z = true -> less x z = true;
  less_negtrans : forall x y z, S x -> S y -> S z ->
    less x y = false -> less y z = false -> less x z = false
}.

(** Sorted by [less]: no element is less than one that precedes it. *)
Definition sorted (l : list A) : Prop :=
  StronglySorted (fun x y => less y x = false) l.

(** [insertionSortLessFunc], which [sort.Slice] runs on a slice of at
    most 12 elements:
      for i := a + 1; i < b; i++ {
        for j := i; j > a && less(j, j-1); j-- { swap(j, j-1) } }
    [insert x rprefix] is the inner loop: [rprefix] is the sorted prefix
    from its last element down to its first, and [x] moves towards the
    front for as long as it is less than its left neighbour. *)
Fixpoint insert (x : A) (rprefix : list A) : list A :=
  match rprefix with
  | [] => [x]
  | y :: rprefix' =>
      if less x y then y :: insert x rprefix' else x :: rprefix
  end.

Definition insertionSort (xs : list A) : list A :=
  rev (fold_left (fun rprefix x => insert x rprefix) xs []).

Lemma insert_Permutation (x : A) (rp : list A) :
  Permutation (x :: rp) (insert x rp).
Proof.
  induction rp as [|y rp IH]; simpl; [reflexivity|].
  destruct (less x y); [|reflexivity].
  rewrite perm_swap. now apply perm_skip.
Qed.

Lemma fold_insert_Permutation (xs : list A) :
  forall rp,
    Permutation (xs ++ rp)
                (fold_left (fun rprefix x => insert x rprefix) xs rp).
Proof.
  induction xs as [|x xs IH]; intros rp; simpl; [reflexivity|].
  rewrite <- IH, <- insert_Permutation.
  apply Permutation_middle.
Qed.

Lemma insertionSort_Permutation (xs : list A) :
  Permutation xs (insertionSort xs).
Proof.
  unfold insertionSort. rewrite <- Permutation_rev.
  rewrite <- fold_insert_Permutation. now rewrite app_nil_r.
Qed.

Section Sorted.

Variable S : A -> Prop.
Hypothesis ordering : transitive_ordering S.

Lemma less_asym (x y : A) :
  S x -> S y -> less x y = true -> less y x = false.
Proof.
  intros Hx Hy Hxy. destruct (less y x) eqn:Hyx; [|reflexivity].
  rewrite <- (less_irrefl S ordering x Hx).
  symmetry. exact (less_trans S ordering x y x Hx Hy Hx Hxy Hyx).
Qed.

Lemma insert_Forall (P : A -> Prop) (x : A) (rp : list A) :
  P x -> Forall P rp -> Forall P (insert x rp).
Proof.
  intros Hx Hrp.
  apply (Permutation_Forall (insert_Permutation x rp)).
  now constructor.
Qed.

(** The prefix, read from its last element, is sorted downwards. *)
Lemma insert_sorted (x : A) (rp : list A) :
  S x -> Forall S rp ->
  StronglySorted (fun a b => less a b = false) rp ->
  StronglySorted (fun a b => less a b = false) (insert x rp).
Proof.
  intros Hx. induction rp as [|y rp IH]; intros HS Hsorted; simpl.
  - repeat constructor.
  - inversion HS as [|? ? Hy HSrp]; subst.
    inversion Hsorted as [|? ? Hrp Hyrp]; subst.
    destruct (less x y) eqn:Hxy.
    + constructor; [now apply IH|].
      apply insert_Forall; [now apply less_asym | assumption].
    + constructor; [assumption|].
      constructor; [assumption|].
      rewrite Forall_forall in *. intros z Hz.
      apply (less_negtrans S ordering x y z); auto.
Qed.

Lemma fold_insert_sorted (xs : list A) :
  forall rp,
    Forall S xs -> Forall S rp ->
    StronglySorted (fun a b => less a b = false) rp ->
    StronglySorted (fun a b => less a b = false)
      (fold_left (fun rprefix x => insert x rprefix) xs rp) .
Proof.
  induction xs as [|x xs IH]; intros rp Hxs Hrp Hsorted; simpl;
    [assumption|].
  inversion Hxs; subst.
  apply IH; auto using insert_Forall, insert_sorted.
Qed.

End Sorted.

Lemma StronglySorted_snoc (R : A -> A -> Prop) (l : list A) (x : A) :
  StronglySorted R l -> Forall (fun y => R y x) l ->
  StronglySorted R (l ++ [x]).
Proof.
  induction 1 as [|y l Hl IH Hy]; intros Hx; simpl.
  - repeat constructor.
  - inversion Hx; subst. constructor; [now apply IH|].
    apply Forall_app. split; [assumption | now repeat constructor].
Qed.

Lemma StronglySorted_rev (R : A -> A -> Prop) (l : list A) :
  StronglySorted R l -> StronglySorted (fun a b => R b a) (rev l).
Proof.
  induction 1 as [|y l Hl IH Hy]; simpl; [constructor|].
  apply StronglySorted_snoc; [assumption|].
  now apply Forall_rev.
Qed.

Lemma insertionSort_sorted (xs : list A) :
  transitive_ordering (fun x => In x xs) ->
  sorted (insertionSort xs).
Proof.
  intros Hord. unfold sorted, insertionSort.
  apply StronglySorted_rev with (R := fun a b => less a b = false).
  apply fold_insert_sorted with (S := fun x => In x xs); auto.
  - now apply Forall_forall.
  - constructor.
Qed.

End Ordering.

(** What [sort.Slice(x, less)] promises: it permutes the slice, and the
    result is sorted whenever [less] is a transitive ordering of its
    elements.  The order of equal elements is not promised. *)
Class Sorter : Type := {
  Slice : forall A : Type, (A -> A -> bool) -> list A -> list A;
  Slice_Permutation : forall (A : Type) (less : A -> A -> bool) xs,
    Permutation xs (Slice A less xs);
  Slice_sorted : forall (A : Type) (less : A -> A -> bool) xs,
    transitive_ordering A less (fun x => In x xs) ->
    sorted A less (Slice A less xs)
}.

Arguments Slice {Sorter} {A} less xs.

(** The sorter that runs on slices of at most 12 elements. *)
#[global] Instance insertion : Sorter := {
  Slice := insertionSort;
  Slice_Permutation := insertionSort_Permutation;
  Slice_sorted := insertionSort_sorted
}.

End sort.

(* ================================================================== *)
(** ** The order of float32 values *)

(** [SFcompare] orders the values that are not NaN by sign class, then
    exponent, then mantissa.  The three keys below spell that out in [Z]. *)
Definition key_class (x : float32) : Z :=
  match x with
  | S754_infinity true => -2
  | S754_finite true _ _ => -1
  | S754_zero _ => 0
  | S754_finite false _ _ => 1
  | S754_infinity false => 2
  | S754_nan => 3
  end.

Definition key_exponent (x : float32) : Z :=
  match x with
  | S754_finite true _ e => - e
  | S754_finite false _ e => e
  | _ => 0
  end.

Definition key_mantissa (x : float32) : Z :=
  match x with
  | S754_finite true m _ => Z.neg m
  | S754_finite false m _ => Z.pos m
  | _ => 0
  end.

Definition key_lt (x y : float32) : Prop :=
  key_class x < key_class y \/
  (key_class x = key_class y /\
   (key_exponent x < key_exponent y \/
    (key_exponent x = key_exponent y /\ key_mantissa x < key_mantissa y))).

Lemma SFltb_key_lt (x y : float32) :
  float32.is_nan x = false -> float32.is_nan y = false ->
  SFltb x y = true <-> key_lt x y.
Proof.
  unfold SFltb, key_lt.
  destruct x as [sx|[|]| |[|] mx ex], y as [sy|[|]| |[|] my ey];
    simpl; intros Hx Hy; try discriminate;
    try (split; [discriminate | lia]);
    try (split; [lia | reflexivity]).
  - change (Pos.compare_cont Eq mx my) with (Pos.compare mx my).
    destruct (Z.compare_spec ex ey); simpl;
      try (split; [discriminate | lia]);
      try (split; [lia | reflexivity]).
    destruct (Pos.compare_spec mx my); simpl;
      try (split; [discriminate | lia]);
      try (split; [lia | reflexivity]).
  - change (Pos.compare_cont Eq mx my) with (Pos.compare mx my).
    destruct (Z.compare_spec ex ey); simpl;
      try (split; [discriminate | lia]);
      try (split; [lia | reflexivity]).
    destruct (Pos.compare_spec mx my); simpl;
      try (split; [discriminate | lia]);
      try (split; [lia | reflexivity]).
Qed.

Lemma SFltb_false_key (x y : float32) :
  float32.is_nan x = false -> float32.is_nan y = false ->
  SFltb x y = false <-> ~ key_lt x y.
Proof.
  intros Hx Hy. rewrite <- (SFltb_key_lt x y Hx Hy).
  destruct (SFltb x y); split; congruence.
Qed.

(** Among values that are not NaN, [>] is a transitive ordering. *)
Lemma float32_gt_irrefl (x : float32) : float32.gt x x = false.
Proof.
  unfold float32.gt. destruct (float32.is_nan x) eqn:Hx.
  - now destruct x.
  - apply SFltb_false_key; auto. unfold key_lt. lia.
Qed.

Lemma float32_gt_trans (x y z : float32) :
  float32.is_nan x = false -> float32.is_nan y = false ->
  float32.is_nan z = false ->
  float32.gt x y = true -> float32.gt y z = true -> float32.gt x z = true.
Proof.
  unfold float32.gt. intros Hx Hy Hz.
  rewrite !SFltb_key_lt by assumption. unfold key_lt. lia.
Qed.

Lemma float32_gt_negtrans (x y z : float32) :
  float32.is_nan x = false -> float32.is_nan y = false ->
  float32.is_nan z = false ->
  float32.gt x y = false -> float32.gt y z = false -> float32.gt x z = false.
Proof.
  unfold float32.gt. intros Hx Hy Hz.
  rewrite !SFltb_false_key by assumption. unfold key_lt. lia.
Qed.

Lemma SFcompare_swap (x y : float32) :
  SFcompare y x = option_map CompOpp (SFcompare x y).
Proof.
  destruct x as [sx|[|]| |[|] mx ex], y as [sy|[|]| |[|] my ey];
    simpl; try reflexivity;
    change (Pos.compare_cont Eq my mx) with (Pos.compare my mx);
    change (Pos.compare_cont Eq mx my) with (Pos.compare mx my);
    rewrite (Z.compare_antisym ex ey), (Pos.compare_antisym mx my);
    destruct (ex ?= ey), (mx ?= my)%positive; reflexivity.
Qed.

(** Without NaN the order is total: "not [y > x]" is "[x >= y]". *)
Lemma float32_not_gt_ge (x y : float32) :
  float32.is_nan x = false -> float32.is_nan y = false ->
  float32.gt y x = false -> float32.ge x y = true.
Proof.
  unfold float32.gt, float32.ge, SFltb, SFleb. intros Hx Hy.
  rewrite (SFcompare_swap x y).
  destruct (SFcompare x y) as [[| |]|] eqn:Hc; simpl; try congruence.
  destruct x, y; simpl in *; discriminate.
Qed.

(* ================================================================== *)
(** ** document and vectorStore *)

Record document : Type := mkDocument {
  text : string;
  embedding : list float32
}.

Record vectorStore : Type := mkVectorStore {
  documents : list document
}.

(** A method with receiver [vs *vectorStore]: it reads and writes the store
    it is called on, and returns a value or panics.  The store is there
    after a panic too. *)
Definition method (A : Type) : Type := vectorStore -> option A * vectorStore.

Definition ret {A : Type} (a : A) : method A := fun vs => (Some a, vs).

Definition bind {A B : Type} (m : method A) (f : A -> method B) : method B :=
  fun vs =>
    match m vs with
    | (Some a, vs') => f a vs'
    | (None, vs') => (None, vs')
    end.

Notation "x <- m ;; f" := (bind m (fun x => f))
  (at level 61, m at next level, right associativity).

(** Reading [vs.documents]. *)
Definition load_documents : method (list document) :=
  fun vs => (Some (documents vs), vs).

(** Assigning [vs.documents]. *)
Definition store_documents (ds : list document) : method unit :=
  fun _ => (Some tt, mkVectorStore ds).

(** A computation on local values only, which may panic. *)
Definition local {A : Type} (r : option A) : method A := fun vs => (r, vs).

(** [returned m vs]: what the call returns, [None] for a panic.
    [store_after m vs]: the store the call leaves. *)
Definition returned {A : Type} (m : method A) (vs : vectorStore) : option A :=
  fst (m vs).
Definition store_after {A : Type} (m : method A) (vs : vectorStore)
  : vectorStore := snd (m vs).

(** [&vectorStore{documents: make([]document, 0)}] *)
Definition newVectorStore : vectorStore := mkVectorStore [].

(** [vs.documents = append(vs.documents, doc)] *)
Definition add (doc : document) : method unit :=
  docs <- load_documents ;;
  store_documents (docs ++ [doc]).

(** The local [type scored struct { Doc document; Score float32 }]. *)
Record scored : Type := mkScored { Doc : document; Score : float32 }.

(** [for _, doc := range vs.documents { s := cosineSim(queryVec,
    doc.embedding); scoredDocs = append(scoredDocs, scored{doc, s}) }] *)
Fixpoint score_loop (queryVec : list float32) (docs : list document)
    (scoredDocs : list scored) : option (list scored) :=
  match docs with
  | [] => Some scoredDocs
  | doc :: rest =>
      match cosineSim queryVec (embedding doc) with
      | None => None
      | Some s => score_loop queryVec rest (scoredDocs ++ [mkScored doc s])
      end
  end.

(** [func(i, j int) bool { return scoredDocs[i].Score > scoredDocs[j].Score }] *)
Definition less (x y : scored) : bool := float32.gt (Score x) (Score y).

(** [for i := 0; i < k && i < len(scoredDocs); i++ { top = append(top,
    scoredDocs[i].Doc) }], at index [i] with [rest = scoredDocs[i:]]. *)
Fixpoint top_loop (k i : Z) (rest : list scored) (top : list document)
  : list document :=
  match rest with
  | [] => top
  | s :: rest' =>
      if i <? k then top_loop k (i + 1) rest' (top ++ [Doc s]) else top
  end.

Definition retrieveTopK `{sort.Sorter} (queryVec : list float32) (k : Z)
  : method (list document) :=
  docs <- load_documents ;;
  scoredDocs <- local (score_loop queryVec docs []) ;;
  let sortedDocs := sort.Slice less scoredDocs in
  ret (top_loop k 0 sortedDocs []).

(** *** The words of the specification about retrieval *)

(** The cosine similarity of a stored fragment against the query. *)
Definition similarity (queryVec : list float32) (d : document)
  : option float32 := cosineSim queryVec (embedding d).

(** [d1] does not score below [d2]. *)
Definition scores_at_least (queryVec : list float32) (d1 d2 : document)
  : Prop :=
  exists s1 s2,
    similarity queryVec d1 = Some s1 /\
    similarity queryVec d2 = Some s2 /\
    float32.ge s1 s2 = true.

(** Ordered by descending similarity: every fragment scores at least as
    much as each fragment after it. *)
Definition descending (queryVec : list float32) (ds : list document) : Prop :=
  StronglySorted (scores_at_least queryVec) ds.

(** No stored embedding is shorter than the query. *)
Definition covers_query (queryVec : list float32) (ds : list document)
  : Prop :=
  Forall (fun d => (length queryVec <= length (embedding d))%nat) ds.

(** No similarity against the query is NaN. *)
Definition no_NaN_score (queryVec : list float32) (ds : list document)
  : Prop :=
  Forall (fun d => forall s, similarity queryVec d = Some s ->
                             float32.is_nan s = false) ds.

Definition vec (l : list Z) : list float32 := map float32.of_Z l.

(* ------------------------------------------------------------------ *)
(** *** The two loops of retrieveTopK *)

Lemma score_loop_scores (queryVec : list float32) (docs : list document) :
  forall acc out,
    score_loop queryVec docs acc = Some out ->
    exists new,
      out = acc ++ new /\
      map Doc new = docs /\
      Forall (fun s => similarity queryVec (Doc s) = Some (Score s)) new.
Proof.
  induction docs as [|doc rest IH]; intros acc out Hloop; simpl in Hloop.
  - injection Hloop as <-. exists []. now rewrite app_nil_r.
  - destruct (cosineSim queryVec (embedding doc)) as [s|] eqn:Hs;
      [|discriminate].
    destruct (IH _ _ Hloop) as (new & -> & Hdocs & Hnew).
    exists (mkScored doc s :: new). repeat split.
    + now rewrite <- app_assoc.
    + simpl. now rewrite Hdocs.
    + now constructor.
Qed.

Lemma score_loop_defined (queryVec : list float32) (docs : list document) :
  covers_query queryVec docs ->
  forall acc, exists out, score_loop queryVec docs acc = Some out.
Proof.
  induction 1 as [|doc rest Hdoc _ IH]; intros acc; simpl.
  - now exists acc.
  - rewrite (cosineSim_defined _ _ Hdoc). apply IH.
Qed.

(** One stored embedding shorter than the query makes the scoring loop
    panic, before anything is sorted or returned. *)
Lemma score_loop_panics (queryVec : list float32) (docs : list document) :
  Exists (fun d => (length (embedding d) < length queryVec)%nat) docs ->
  forall acc, score_loop queryVec docs acc = None.
Proof.
  induction 1 as [doc rest Hdoc | doc rest _ IH]; intros acc; simpl.
  - now rewrite (cosineSim_panics _ _ Hdoc).
  - destruct (cosineSim queryVec (embedding doc)); [apply IH | reflexivity].
Qed.

Lemma top_loop_firstn (k : Z) (sd : list scored) :
  forall i top,
    top_loop k i sd top = top ++ map Doc (firstn (Z.to_nat (k - i)) sd).
Proof.
  induction sd as [|s sd IH]; intros i top; simpl.
  - rewrite firstn_nil. simpl. now rewrite app_nil_r.
  - destruct (i <? k) eqn:Hik.
    + apply Z.ltb_lt in Hik. rewrite IH.
      replace (Z.to_nat (k - i)) with (S (Z.to_nat (k - (i + 1)))) by lia.
      simpl. now rewrite <- app_assoc.
    + apply Z.ltb_ge in Hik.
      replace (Z.to_nat (k - i)) with 0%nat by lia.
      simpl. now rewrite app_nil_r.
Qed.

Section RetrieveTopK.

Context `{sorter : sort.Sorter}.

Lemma retrieveTopK_returned (queryVec : list float32) (k : Z)
    (vs : vectorStore) :
  returned (retrieveTopK queryVec k) vs =
  match score_loop queryVec (documents vs) [] with
  | None => None
  | Some scoredDocs =>
      Some (map Doc (firstn (Z.to_nat k) (sort.Slice less scoredDocs)))
  end.
Proof.
  unfold returned, retrieveTopK, bind, load_documents, local, ret.
  destruct (score_loop queryVec (documents vs) []); simpl; [|reflexivity].
  now rewrite top_loop_firstn, Z.sub_0_r.
Qed.

Lemma retrieveTopK_store_after (queryVec : list float32) (k : Z)
    (vs : vectorStore) :
  store_after (retrieveTopK queryVec k) vs = vs.
Proof.
  unfold store_after, retrieveTopK, bind, load_documents, local, ret.
  now destruct (score_loop queryVec (documents vs) []).
Qed.

Lemma retrieveTopK_panics (queryVec : list float32) (k : Z)
    (vs : vectorStore) :
  Exists (fun d => (length (embedding d) < length queryVec)%nat)
         (documents vs) ->
  returned (retrieveTopK queryVec k) vs = None.
Proof.
  intros Hshort. rewrite retrieveTopK_returned.
  now rewrite score_loop_panics.
Qed.

(** On scores without NaN the comparison handed to [sort.Slice] is a
    transitive ordering. *)
Lemma less_transitive_ordering (scoredDocs : list scored) :
  Forall (fun s => float32.is_nan (Score s) = false) scoredDocs ->
  sort.transitive_ordering scored less (fun s => In s scoredDocs).
Proof.
  intros Hnan. rewrite Forall_forall in Hnan.
  constructor; unfold less.
  - intros x _. apply float32_gt_irrefl.
  - intros x y z Hx Hy Hz. apply float32_gt_trans; auto.
  - intros x y z Hx Hy Hz. apply float32_gt_negtrans; auto.
Qed.

Lemma StronglySorted_map_Forall {A B : Type} (P : A -> Prop)
    (R : A -> A -> Prop) (R' : B -> B -> Prop) (f : A -> B) (l : list A) :
  (forall x y, P x -> P y -> R x y -> R' (f x) (f y)) ->
  Forall P l -> StronglySorted R l -> StronglySorted R' (map f l).
Proof.
  intros HR HP. induction 1 as [|x l Hl IH Hx]; simpl; [constructor|].
  inversion HP as [|? ? Px Pl]; subst.
  constructor; [now apply IH|].
  rewrite Forall_forall in *. intros y Hy.
  apply in_map_iff in Hy. destruct Hy as (z & <- & Hz). auto.
Qed.

(** The sorted scored entries, read as fragments, are in descending order
    of similarity. *)
Lemma sorted_descending (queryVec : list float32) (sd : list scored) :
  Forall (fun s => similarity queryVec (Doc s) = Some (Score s)) sd ->
  Forall (fun s => float32.is_nan (Score s) = false) sd ->
  sort.sorted scored less sd ->
  descending queryVec (map Doc sd).
Proof.
  intros Hscore Hnan Hsorted. unfold descending.
  apply StronglySorted_map_Forall
    with (P := fun s => similarity queryVec (Doc s) = Some (Score s) /\
                        float32.is_nan (Score s) = false)
         (R := fun x y => less y x = false).
  - intros x y [Hx Hxn] [Hy Hyn] Hxy.
    exists (Score x), (Score y). repeat split; auto.
    now apply float32_not_gt_ge.
  - rewrite Forall_forall in *. intros s Hs. split; auto.
  - exact Hsorted.
Qed.

End RetrieveTopK.

(* ================================================================== *)
(** ** Concrete inputs *)

(** The store of TestVectorStore_RetrieveTopK_OrderCorrectness. *)
Definition perfect_match : document := mkDocument "perfect match" (vec [1; 0]).
Definition orthogonal : document := mkDocument "orthogonal" (vec [0; 1]).
Definition partial_match : document :=
  mkDocument "partial match" [float32.of_Z2 1 (-1); float32.of_Z2 1 (-1)].

Definition example_store : vectorStore :=
  mkVectorStore [perfect_match; orthogonal; partial_match].

(** A store whose only embedding has one component. *)
Definition short_store : vectorStore :=
  mkVectorStore [mkDocument "short" (vec [1])].

Example retrieveTopK_order_correctness :
  returned (retrieveTopK (vec [1; 0]) 3) example_store =
  Some [perfect_match; partial_match; orthogonal].
Proof. reflexivity. Qed.

Example chunkText_extra_whitespace :
  chunkText strings.Fields "  hello   world   test  " 10 =
  ["hello"; "world test"].
Proof. reflexivity. Qed.

Example chunkText_long_word :
  chunkText strings.Fields "verylongword" 5 = ["verylongword"].
Proof. reflexivity. Qed.

(* ================================================================== *)
(** ** cosineSim: lengths, zero norms, symmetry *)

(** C1, as the claim states it, fails: with a query of two components and an
    embedding of one, [b[1]] is out of range and the call panics. *)
Lemma cosineSim_longer_first_panics :
  cosineSim (vec [1; 0]) (vec [1]) = None.
Proof. reflexivity. Qed.

(** C1 (amended).  When [a] is the shorter vector, [cosineSim(a, b)] does not
    fail: it returns [dot / (‖a‖ · ‖b‖)] computed over the first
    [min(len(a), len(b)) = len(a)] components of both vectors, the rest of
    [b] being ignored.  When [a] is the longer vector, it panics. *)
Theorem cosineSim_unequal_lengths (a b : list float32) :
  ((length a < length b)%nat ->
     cosineSim a b = Some (truncated_cosine a b)) /\
  ((length b < length a)%nat -> cosineSim a b = None).
Proof.
  split; intros Hlen.
  - apply cosineSim_defined. lia.
  - now apply cosineSim_panics.
Qed.

Lemma cosineSim_unequal_lengths_witness :
  cosineSim (vec [1]) (vec [1; 2]) =
    Some (truncated_cosine (vec [1]) (vec [1; 2])) /\
  cosineSim (vec [1; 2]) (vec [1]) = None.
Proof.
  split.
  - apply (proj1 (cosineSim_unequal_lengths (vec [1]) (vec [1; 2]))).
    simpl. lia.
  - apply (proj2 (cosineSim_unequal_lengths (vec [1; 2]) (vec [1]))).
    simpl. lia.
Defined.

(** C9, as the claim states it, fails: the empty vector has norm zero, and
    against it a non-empty first argument makes the call panic instead of
    returning a non-finite value. *)
Lemma cosineSim_empty_second_panics :
  cosineSim (vec [0]) [] = None.
Proof. reflexivity. Qed.

(** C9 (amended).  When [a] is not longer than [b] and one of the two is a
    zero vector (every component [+0] or [-0], the empty vector included),
    [cosineSim(a, b)] returns a value that is NaN or an infinity: the
    division is not guarded. *)
Theorem cosineSim_zero_norm (a b : list float32) :
  (length a <= length b)%nat ->
  zero_vector a \/ zero_vector b ->
  exists r, cosineSim a b = Some r /\ float32.is_finite r = false.
Proof.
  intros Hlen Hzero.
  exists (truncated_cosine a b). split; [now apply cosineSim_defined|].
  unfold truncated_cosine, cosine_formula.
  set (n := Nat.min (length a) (length b)).
  apply float32_div_by_zero_or_nan.
  destruct Hzero as [Ha | Hb].
  - rewrite (sum_squares_zero_vector _ (zero_vector_firstn n a Ha)), sqrt_zero.
    now apply float32_mul_zero_l.
  - rewrite (sum_squares_zero_vector _ (zero_vector_firstn n b Hb)), sqrt_zero.
    now apply float32_mul_zero_r.
Qed.

Lemma cosineSim_zero_norm_witness :
  exists r, cosineSim (vec [0; 0]) (vec [1; 2]) = Some r /\
            float32.is_finite r = false.
Proof.
  apply (cosineSim_zero_norm (vec [0; 0]) (vec [1; 2])).
  - simpl. lia.
  - left. repeat constructor.
Defined.

(** C10.  On vectors of equal length [cosineSim(a, b)] and [cosineSim(b, a)]
    are the same IEEE value (both NaN when one is). *)
Theorem cosineSim_comm (a b : list float32) :
  length a = length b -> cosineSim a b = cosineSim b a.
Proof.
  intros Hlen.
  rewrite (cosineSim_defined a b), (cosineSim_defined b a) by lia.
  unfold truncated_cosine.
  rewrite (Nat.min_comm (length b) (length a)).
  now rewrite cosine_formula_comm.
Qed.

Lemma cosineSim_comm_witness :
  cosineSim (vec [1; 2]) (vec [3; 4]) = cosineSim (vec [3; 4]) (vec [1; 2]).
Proof. apply (cosineSim_comm (vec [1; 2]) (vec [3; 4])). reflexivity. Defined.

(* ================================================================== *)
(** ** retrieveTopK and add *)

Lemma firstn_min_length {A : Type} (n : nat) (l : list A) :
  firstn n l = firstn (Nat.min n (length l)) l.
Proof.
  destruct (Nat.le_ge_cases n (length l)) as [H | H].
  - now rewrite Nat.min_l.
  - rewrite Nat.min_r by assumption. now rewrite firstn_all, firstn_all2.
Qed.

(** C2, as the claim states it, fails: a query longer than a stored embedding
    makes the call panic, so nothing is returned. *)
Lemma retrieveTopK_short_embedding_panics :
  returned (retrieveTopK (vec [1; 0]) 1) short_store = None.
Proof. reflexivity. Qed.

(** Without the condition on NaN the ranking is lost as well: a fragment
    whose similarity is NaN stays in front of the perfect match. *)
Lemma retrieveTopK_NaN_score_first :
  returned (retrieveTopK (vec [1; 0]) 1)
           (mkVectorStore [mkDocument "zero" (vec [0; 0]); perfect_match]) =
  Some [mkDocument "zero" (vec [0; 0])].
Proof. reflexivity. Qed.

(** C2 (amended).  For every [k >= 1], every store none of whose embeddings
    is shorter than the query, and none of whose similarities against the
    query is NaN: there is a ranking of the stored fragments by descending
    similarity (ties in the order the sorter leaves them) of which
    [retrieveTopK] returns exactly the first [min(k, storedCount)] entries;
    when [k] is at least the stored count it returns the whole ranking. *)
Theorem retrieveTopK_top_k `{sorter : sort.Sorter} (queryVec : list float32)
    (k : Z) (vs : vectorStore) :
  1 <= k ->
  covers_query queryVec (documents vs) ->
  no_NaN_score queryVec (documents vs) ->
  exists ranked : list document,
    Permutation (documents vs) ranked /\
    descending queryVec ranked /\
    returned (retrieveTopK queryVec k) vs =
      Some (firstn (Z.to_nat (Z.min k (len (documents vs)))) ranked) /\
    (len (documents vs) <= k ->
       returned (retrieveTopK queryVec k) vs = Some ranked).
Proof.
  intros Hk Hcov Hnan.
  destruct (score_loop_defined queryVec (documents vs) Hcov []) as [sd Hsd].
  destruct (score_loop_scores _ _ _ _ Hsd) as (new & Hout & Hdocs & Hscores).
  simpl in Hout. subst new.
  pose proof (sort.Slice_Permutation scored less sd) as Hperm.
  assert (Hsd_nan : Forall (fun s => float32.is_nan (Score s) = false) sd).
  { unfold no_NaN_score in Hnan. rewrite Forall_forall in *.
    intros s Hs. apply (Hnan (Doc s)).
    - rewrite <- Hdocs. now apply in_map.
    - now apply Hscores. }
  assert (Hlen : length (sort.Slice less sd) = length (documents vs)).
  { rewrite <- (Permutation_length Hperm), <- Hdocs. now rewrite length_map. }
  assert (Hret : returned (retrieveTopK queryVec k) vs =
                 Some (firstn (Z.to_nat (Z.min k (len (documents vs))))
                              (map Doc (sort.Slice less sd)))).
  { rewrite retrieveTopK_returned, Hsd. f_equal.
    rewrite <- firstn_map, (firstn_min_length (Z.to_nat k)).
    rewrite length_map, Hlen. f_equal. unfold len. lia. }
  exists (map Doc (sort.Slice less sd)). repeat split.
  - rewrite <- Hdocs. now apply Permutation_map.
  - apply sorted_descending.
    + exact (Permutation_Forall Hperm Hscores).
    + exact (Permutation_Forall Hperm Hsd_nan).
    + apply sort.Slice_sorted. now apply less_transitive_ordering.
  - exact Hret.
  - intros Hall. rewrite Hret. f_equal.
    apply firstn_all2. rewrite length_map, Hlen. unfold len in *. lia.
Qed.

Lemma retrieveTopK_top_k_witness :
  exists ranked : list document,
    Permutation (documents example_store) ranked /\
    descending (vec [1; 0]) ranked /\
    returned (retrieveTopK (vec [1; 0]) 2) example_store =
      Some (firstn (Z.to_nat (Z.min 2 (len (documents example_store)))) ranked) /\
    (len (documents example_store) <= 2 ->
       returned (retrieveTopK (vec [1; 0]) 2) example_store = Some ranked).
Proof.
  apply (@retrieveTopK_top_k sort.insertion (vec [1; 0]) 2 example_store).
  - lia.
  - repeat constructor.
  - repeat constructor; intros s Hs; vm_compute in Hs;
      injection Hs as <-; reflexivity.
Defined.

(** C5, as the claim states it, fails: with [k = 0] the scoring loop still
    runs, and panics on an embedding shorter than the query. *)
Lemma retrieveTopK_zero_k_panics :
  returned (retrieveTopK (vec [1; 0]) 0) short_store = None.
Proof. reflexivity. Qed.

(** C5 (amended).  [retrieveTopK] returns the empty sequence, and does not
    panic, for every [k <= 0] on a store none of whose embeddings is shorter
    than the query, and for every [k] and query on the empty store. *)
Theorem retrieveTopK_empty_cases `{sorter : sort.Sorter}
    (queryVec : list float32) (k : Z) (vs : vectorStore) :
  (k <= 0 -> covers_query queryVec (documents vs) ->
     returned (retrieveTopK queryVec k) vs = Some []) /\
  (documents vs = [] -> returned (retrieveTopK queryVec k) vs = Some []).
Proof.
  split.
  - intros Hk Hcov. rewrite retrieveTopK_returned.
    destruct (score_loop_defined queryVec (documents vs) Hcov []) as [sd ->].
    now replace (Z.to_nat k) with 0%nat by lia.
  - intros Hempty. rewrite retrieveTopK_returned, Hempty. simpl.
    pose proof (sort.Slice_Permutation scored less []) as Hperm.
    apply Permutation_nil in Hperm. rewrite Hperm.
    now rewrite firstn_nil.
Qed.

Lemma retrieveTopK_empty_cases_witness :
  returned (retrieveTopK (vec [1; 0]) (-1)) example_store = Some [] /\
  returned (retrieveTopK (vec [1; 0]) 3) newVectorStore = Some [].
Proof.
  split.
  - apply (proj1 (@retrieveTopK_empty_cases sort.insertion (vec [1; 0]) (-1)
                    example_store)).
    + lia.
    + repeat constructor.
  - apply (proj2 (@retrieveTopK_empty_cases sort.insertion (vec [1; 0]) 3
                    newVectorStore)).
    reflexivity.
Defined.

(** C6.  [add] returns without panic and leaves the store with the new
    fragment appended: one fragment more, the earlier ones unchanged and in
    their order.  [retrieveTopK] leaves the store as it found it, whether it
    returns or panics, and what it returns depends on the stored fragments,
    the query and [k] only. *)
Theorem stored_fragments_preserved `{sorter : sort.Sorter}
    (vs : vectorStore) (doc : document) (queryVec : list float32) (k : Z) :
  returned (add doc) vs = Some tt /\
  documents (store_after (add doc) vs) = documents vs ++ [doc] /\
  length (documents (store_after (add doc) vs)) = S (length (documents vs)) /\
  firstn (length (documents vs)) (documents (store_after (add doc) vs)) =
    documents vs /\
  store_after (retrieveTopK queryVec k) vs = vs /\
  (forall vs' : vectorStore,
     documents vs' = documents vs ->
     returned (retrieveTopK queryVec k) vs' =
     returned (retrieveTopK queryVec k) vs).
Proof.
  repeat split.
  - unfold store_after, add, bind, load_documents, store_documents. simpl.
    rewrite length_app. simpl. lia.
  - unfold store_after, add, bind, load_documents, store_documents. simpl.
    rewrite firstn_app, Nat.sub_diag, firstn_all. simpl. now rewrite app_nil_r.
  - apply retrieveTopK_store_after.
  - intros vs' Hsame. rewrite !retrieveTopK_returned. now rewrite Hsame.
Qed.

Lemma stored_fragments_preserved_witness :
  documents (store_after (add orthogonal) short_store) =
    documents short_store ++ [orthogonal] /\
  store_after (retrieveTopK (vec [1; 0]) 2) example_store = example_store.
Proof.
  pose proof (@stored_fragments_preserved sort.insertion short_store
                orthogonal (vec [1; 0]) 2) as Hadd.
  pose proof (@stored_fragments_preserved sort.insertion example_store
                orthogonal (vec [1; 0]) 2) as Hget.
  split.
  - exact (proj1 (proj2 Hadd)).
  - exact (proj1 (proj2 (proj2 (proj2 (proj2 Hget))))).
Defined.

(* ================================================================== *)
(** ** chunkText *)

(** The whitespace-normalized form of a text: its words, separated by single
    spaces. *)
Definition normalize_whitespace (Fields : string -> list string)
    (text : string) : string :=
  strings.Join (Fields text) " ".

(** C3.  For a positive [maxLen], joining the fragments of [chunkText] with
    single spaces gives the whitespace-normalized text; the fragments are
    the words of the text, in their order, cut into non-empty groups, so no
    word is split, repeated or lost. *)
Theorem chunkText_roundtrip (Fields : string -> list string) (text : string)
    (maxLen : Z) :
  0 < maxLen ->
  strings.Join (chunkText Fields text maxLen) " " =
    normalize_whitespace Fields text /\
  exists groups : list (list string),
    chunkText Fields text maxLen = map join_words groups /\
    concat groups = Fields text /\
    Forall (fun g => g <> []) groups.
Proof.
  intros Hpos.
  destruct (chunkText_groups Fields text maxLen Hpos)
    as (gs & Hchunks & Hwords & Hgood).
  apply good_group_nonempty in Hgood.
  split.
  - unfold normalize_whitespace. rewrite Hchunks, <- Hwords.
    now apply Join_concat.
  - now exists gs.
Qed.

Lemma chunkText_roundtrip_witness :
  strings.Join (chunkText strings.Fields "  hello   world   test  " 10) " " =
    normalize_whitespace strings.Fields "  hello   world   test  " /\
  exists groups : list (list string),
    chunkText strings.Fields "  hello   world   test  " 10 =
      map join_words groups /\
    concat groups = strings.Fields "  hello   world   test  " /\
    Forall (fun g => g <> []) groups.
Proof.
  apply (chunkText_roundtrip strings.Fields "  hello   world   test  " 10).
  lia.
Defined.

(** C4.  For a positive [maxLen], every fragment of [chunkText] is at most
    [maxLen] bytes long, or else it is one single word of the text whose own
    length exceeds [maxLen]. *)
Theorem chunkText_fragment_length (Fields : string -> list string)
    (text : string) (maxLen : Z) :
  0 < maxLen ->
  exists groups : list (list string),
    chunkText Fields text maxLen = map join_words groups /\
    concat groups = Fields text /\
    Forall (fun g =>
              len_string (join_words g) <= maxLen \/
              exists w, g = [w] /\ In w (Fields text) /\
                        maxLen < len_string w) groups.
Proof.
  intros Hpos.
  destruct (chunkText_groups Fields text maxLen Hpos)
    as (gs & Hchunks & Hwords & Hgood).
  exists gs. repeat split; auto.
  rewrite Forall_forall in *. intros g Hg.
  destruct (Hgood g Hg) as [_ [Hfit | [w ->]]]; [now left|].
  destruct (Z.le_gt_cases (len_string (join_words [w])) maxLen) as [H | H];
    [now left|].
  right. exists w. repeat split; auto.
  rewrite <- Hwords. apply in_concat. exists [w]. simpl. auto.
Qed.

Lemma chunkText_fragment_length_witness :
  exists groups : list (list string),
    chunkText strings.Fields "a verylongword b c" 5 = map join_words groups /\
    concat groups = strings.Fields "a verylongword b c" /\
    Forall (fun g =>
              len_string (join_words g) <= 5 \/
              exists w, g = [w] /\
                        In w (strings.Fields "a verylongword b c") /\
                        5 < len_string w) groups.
Proof.
  apply (chunkText_fragment_length strings.Fields "a verylongword b c" 5).
  lia.
Defined.

(** C7.  For [maxLen <= 0], [chunkText] returns the words of the text, each
    one a fragment of its own, in their order; so "hello world" with
    [maxLen = 0] gives "hello" and "world". *)
Theorem chunkText_nonpositive_maxLen :
  (forall (Fields : string -> list string) (text : string) (maxLen : Z),
     maxLen <= 0 -> chunkText Fields text maxLen = Fields text) /\
  chunkText strings.Fields "hello world" 0 = ["hello"; "world"].
Proof.
  split; [|reflexivity].
  intros Fields text maxLen Hle. unfold chunkText.
  apply Z.leb_le in Hle. now rewrite Hle.
Qed.

Lemma chunkText_nonpositive_maxLen_witness :
  chunkText strings.Fields "hello world" (-5) = strings.Fields "hello world".
Proof.
  apply (proj1 chunkText_nonpositive_maxLen strings.Fields "hello world" (-5)).
  lia.
Defined.

(** C8.  [chunkText("this is a test of chunking functionality", 10)] is the
    four fragments "this is a", "test of", "chunking", "functionality". *)
Theorem chunkText_test_sentence :
  chunkText strings.Fields "this is a test of chunking functionality" 10 =
  ["this is a"; "test of"; "chunking"; "functionality"].
Proof.
  unfold chunkText. simpl Z.leb. cbv iota.
  change (strings.Fields "this is a test of chunking functionality")
    with ["this"; "is"; "a"; "test"; "of"; "chunking"; "functionality"].
  reflexivity.
Qed.

(* ================================================================== *)
(** ** Further properties of retrieveTopK and add *)

Lemma covers_query_or_short (queryVec : list float32) (ds : list document) :
  covers_query queryVec ds \/
  Exists (fun d => (length (embedding d) < length queryVec)%nat) ds.
Proof.
  unfold covers_query. induction ds as [|d ds IH].
  - left. constructor.
  - destruct (Nat.le_gt_cases (length queryVec) (length (embedding d)))
      as [Hd | Hd].
    + destruct IH as [IH | IH]; [left | right]; now constructor.
    + right. now constructor.
Qed.

Lemma StronglySorted_app_cross {A : Type} (R : A -> A -> Prop)
    (l1 l2 : list A) :
  StronglySorted R (l1 ++ l2) ->
  forall x y, In x l1 -> In y l2 -> R x y.
Proof.
  induction l1 as [|a l1 IH]; simpl; intros Hsorted x y Hx Hy; [easy|].
  inversion Hsorted as [|? ? Hrest Ha]; subst.
  destruct Hx as [<- | Hx].
  - rewrite Forall_forall in Ha. apply Ha, in_or_app. now right.
  - now apply IH.
Qed.

(** What [retrieveTopK] returns once the scoring loop has produced
    [scoredDocs]: the fragments of the first [k] sorted entries; the other
    sorted entries are what it leaves out. *)
Lemma retrieveTopK_split `{sorter : sort.Sorter} (queryVec : list float32)
    (k : Z) (vs : vectorStore) (scoredDocs : list scored) :
  score_loop queryVec (documents vs) [] = Some scoredDocs ->
  let sortedDocs := sort.Slice less scoredDocs in
  returned (retrieveTopK queryVec k) vs =
    Some (map Doc (firstn (Z.to_nat k) sortedDocs)) /\
  Permutation (documents vs)
    (map Doc (firstn (Z.to_nat k) sortedDocs) ++
     map Doc (skipn (Z.to_nat k) sortedDocs)) /\
  length sortedDocs = length (documents vs).
Proof.
  intros Hsd sortedDocs.
  destruct (score_loop_scores _ _ _ _ Hsd) as (new & Hout & Hdocs & _).
  simpl in Hout. subst new.
  pose proof (sort.Slice_Permutation scored less scoredDocs) as Hperm.
  fold sortedDocs in Hperm.
  repeat split.
  - now rewrite retrieveTopK_returned, Hsd.
  - rewrite <- map_app, firstn_skipn, <- Hdocs. now apply Permutation_map.
  - rewrite <- (Permutation_length Hperm), <- Hdocs. now rewrite length_map.
Qed.

(** X1.  [retrieveTopK] panics exactly when some stored embedding is shorter
    than the query, whatever [k] is: the scoring loop runs over the whole
    store before [k] is looked at. *)
Theorem retrieveTopK_panics_iff `{sorter : sort.Sorter}
    (queryVec : list float32) (k : Z) (vs : vectorStore) :
  returned (retrieveTopK queryVec k) vs = None <->
  Exists (fun d => (length (embedding d) < length queryVec)%nat)
         (documents vs).
Proof.
  split.
  - intros Hnone.
    destruct (covers_query_or_short queryVec (documents vs)) as [Hcov | Hshort];
      [|assumption].
    rewrite retrieveTopK_returned in Hnone.
    destruct (score_loop_defined queryVec (documents vs) Hcov []) as [sd Hsd].
    rewrite Hsd in Hnone. discriminate.
  - apply retrieveTopK_panics.
Qed.

(** X2.  On a store none of whose embeddings is shorter than the query,
    [retrieveTopK] returns [min(max(k, 0), storedCount)] fragments, and they
    are stored fragments taken without repetition: together with the ones
    left out they are a permutation of the store.  This holds for every
    [k], and also when some scores are NaN. *)
Theorem retrieveTopK_selects_stored `{sorter : sort.Sorter}
    (queryVec : list float32) (k : Z) (vs : vectorStore) :
  covers_query queryVec (documents vs) ->
  exists top rest : list document,
    returned (retrieveTopK queryVec k) vs = Some top /\
    Permutation (documents vs) (top ++ rest) /\
    len top = Z.min (Z.max k 0) (len (documents vs)).
Proof.
  intros Hcov.
  destruct (score_loop_defined queryVec (documents vs) Hcov []) as [sd Hsd].
  destruct (retrieveTopK_split queryVec k vs sd Hsd) as (Hret & Hperm & Hlen).
  exists (map Doc (firstn (Z.to_nat k) (sort.Slice less sd))),
         (map Doc (skipn (Z.to_nat k) (sort.Slice less sd))).
  repeat split; auto.
  unfold len. rewrite length_map, length_firstn, Hlen. lia.
Qed.

Lemma retrieveTopK_selects_stored_witness :
  exists top rest : list document,
    returned (retrieveTopK (vec [1; 0]) 2) example_store = Some top /\
    Permutation (documents example_store) (top ++ rest) /\
    len top = Z.min (Z.max 2 0) (len (documents example_store)).
Proof.
  apply (@retrieveTopK_selects_stored sort.insertion (vec [1; 0]) 2
           example_store).
  repeat constructor.
Defined.

(** X3.  On a store none of whose embeddings is shorter than the query and
    none of whose similarities is NaN, the fragments [retrieveTopK] returns
    are the best ones: each of them scores at least as much as each stored
    fragment it leaves out. *)
Theorem retrieveTopK_returns_best `{sorter : sort.Sorter}
    (queryVec : list float32) (k : Z) (vs : vectorStore) :
  covers_query queryVec (documents vs) ->
  no_NaN_score queryVec (documents vs) ->
  exists top rest : list document,
    returned (retrieveTopK queryVec k) vs = Some top /\
    Permutation (documents vs) (top ++ rest) /\
    forall d d', In d top -> In d' rest -> scores_at_least queryVec d d'.
Proof.
  intros Hcov Hnan.
  destruct (score_loop_defined queryVec (documents vs) Hcov []) as [sd Hsd].
  destruct (retrieveTopK_split queryVec k vs sd Hsd) as (Hret & Hperm & _).
  destruct (score_loop_scores _ _ _ _ Hsd) as (new & Hout & Hdocs & Hscores).
  simpl in Hout. subst new.
  pose proof (sort.Slice_Permutation scored less sd) as Hsorted_perm.
  assert (Hsd_nan : Forall (fun s => float32.is_nan (Score s) = false) sd).
  { unfold no_NaN_score in Hnan. rewrite Forall_forall in *.
    intros s Hs. apply (Hnan (Doc s)).
    - rewrite <- Hdocs. now apply in_map.
    - now apply Hscores. }
  exists (map Doc (firstn (Z.to_nat k) (sort.Slice less sd))),
         (map Doc (skipn (Z.to_nat k) (sort.Slice less sd))).
  repeat split; auto.
  apply StronglySorted_app_cross.
  rewrite <- map_app, firstn_skipn.
  apply sorted_descending.
  - exact (Permutation_Forall Hsorted_perm Hscores).
  - exact (Permutation_Forall Hsorted_perm Hsd_nan).
  - apply sort.Slice_sorted. now apply less_transitive_ordering.
Qed.

Lemma retrieveTopK_returns_best_witness :
  exists top rest : list document,
    returned (retrieveTopK (vec [1; 0]) 1) example_store = Some top /\
    Permutation (documents example_store) (top ++ rest) /\
    forall d d', In d top -> In d' rest -> scores_at_least (vec [1; 0]) d d'.
Proof.
  apply (@retrieveTopK_returns_best sort.insertion (vec [1; 0]) 1
           example_store).
  - repeat constructor.
  - repeat constructor; intros s Hs; vm_compute in Hs;
      injection Hs as <-; reflexivity.
Defined.

(** X4.  Asking for fewer fragments gives a prefix of what a larger [k]
    gives on the same store and query: for [k1 <= k2] the result for [k1] is
    the first [k1] entries of the result for [k2] (and both calls panic
    together). *)
Theorem retrieveTopK_fewer_is_prefix `{sorter : sort.Sorter}
    (queryVec : list float32) (k1 k2 : Z) (vs : vectorStore) :
  k1 <= k2 ->
  returned (retrieveTopK queryVec k1) vs =
  option_map (firstn (Z.to_nat k1)) (returned (retrieveTopK queryVec k2) vs).
Proof.
  intros Hk. rewrite !retrieveTopK_returned.
  destruct (score_loop queryVec (documents vs) []) as [sd|]; simpl;
    [|reflexivity].
  f_equal. rewrite <- !firstn_map, firstn_firstn.
  f_equal. lia.
Qed.

Lemma retrieveTopK_fewer_is_prefix_witness :
  returned (retrieveTopK (vec [1; 0]) 1) example_store =
  option_map (firstn (Z.to_nat 1))
             (returned (retrieveTopK (vec [1; 0]) 3) example_store).
Proof.
  apply (@retrieveTopK_fewer_is_prefix sort.insertion (vec [1; 0]) 1 3
           example_store).
  lia.
Defined.

(** [for _, doc := range docs { vs.add(doc) }], the way the store is filled
    in [main] and in the tests. *)
Fixpoint add_each (docs : list document) : method unit :=
  match docs with
  | [] => ret tt
  | doc :: rest => _ <- add doc ;; add_each rest
  end.

Lemma add_each_cons (doc : document) (rest : list document)
    (vs : vectorStore) :
  add_each (doc :: rest) vs =
  add_each rest (mkVectorStore (documents vs ++ [doc])).
Proof. reflexivity. Qed.

Lemma add_each_documents (docs : list document) :
  forall vs,
    returned (add_each docs) vs = Some tt /\
    documents (store_after (add_each docs) vs) = documents vs ++ docs.
Proof.
  unfold returned, store_after.
  induction docs as [|doc rest IH]; intros vs.
  - simpl. now rewrite app_nil_r.
  - rewrite add_each_cons.
    destruct (IH (mkVectorStore (documents vs ++ [doc]))) as [Hret Hdocs].
    split; [exact Hret|].
    rewrite Hdocs. simpl. now rewrite <- app_assoc.
Qed.

(** X5.  Filling a new store with [add] and then retrieving with [k] at
    least the number of fragments added gives back the added fragments, all
    of them and nothing else (in ranking order), provided none of their
    embeddings is shorter than the query; the store itself holds them in
    insertion order. *)
Theorem add_then_retrieve_all `{sorter : sort.Sorter}
    (docs : list document) (queryVec : list float32) (k : Z) :
  covers_query queryVec docs ->
  len docs <= k ->
  let vs := store_after (add_each docs) newVectorStore in
  documents vs = docs /\
  exists top : list document,
    returned (retrieveTopK queryVec k) vs = Some top /\
    Permutation docs top.
Proof.
  intros Hcov Hk vs.
  assert (Hdocs : documents vs = docs).
  { unfold vs. now rewrite (proj2 (add_each_documents docs newVectorStore)). }
  split; [assumption|].
  rewrite <- Hdocs in Hcov.
  destruct (score_loop_defined queryVec (documents vs) Hcov []) as [sd Hsd].
  destruct (retrieveTopK_split queryVec k vs sd Hsd) as (Hret & Hperm & Hlen).
  exists (map Doc (firstn (Z.to_nat k) (sort.Slice less sd))).
  split; [assumption|].
  rewrite skipn_all2 in Hperm
    by (rewrite Hlen, Hdocs; unfold len in Hk; lia).
  simpl in Hperm. rewrite app_nil_r in Hperm. now rewrite <- Hdocs.
Qed.

Lemma add_then_retrieve_all_witness :
  documents (store_after (add_each [orthogonal; perfect_match])
                         newVectorStore) = [orthogonal; perfect_match] /\
  exists top : list document,
    returned (retrieveTopK (vec [1; 0]) 5)
             (store_after (add_each [orthogonal; perfect_match])
                          newVectorStore) = Some top /\
    Permutation [orthogonal; perfect_match] top.
Proof.
  apply (@add_then_retrieve_all sort.insertion [orthogonal; perfect_match]
           (vec [1; 0]) 5).
  - repeat constructor.
  - unfold len. simpl. lia.
Defined.

(* ================================================================== *)
(** ** Further properties of cosineSim and sqrt *)

Lemma float32_add_nan_r (x : float32) : float32.add x S754_nan = S754_nan.
Proof. now destruct x. Qed.

Lemma float32_mul_nan_r (x : float32) : float32.mul x S754_nan = S754_nan.
Proof. now destruct x. Qed.

Lemma float32_div_nan_r (x : float32) : float32.div x S754_nan = S754_nan.
Proof. now destruct x. Qed.

Lemma sqrt_nan : sqrt S754_nan = S754_nan.
Proof. reflexivity. Qed.

(** Once an accumulated sum of squares is NaN it stays NaN. *)
Lemma fold_squares_from_nan (v : list float32) :
  fold_left (fun n x => float32.add n (float32.mul x x)) v S754_nan = S754_nan.
Proof. induction v as [|x v IH]; simpl; [reflexivity | exact IH]. Qed.

Lemma fold_squares_nan_component (v : list float32) :
  forall acc,
    In S754_nan v ->
    fold_left (fun n x => float32.add n (float32.mul x x)) v acc = S754_nan.
Proof.
  induction v as [|x v IH]; intros acc Hin; simpl in *; [easy|].
  destruct Hin as [-> | Hin].
  - simpl. rewrite float32_add_nan_r. apply fold_squares_from_nan.
  - now apply IH.
Qed.

(** X6.  A NaN component is not filtered: when [a] is not longer than [b]
    and a NaN stands in [a], or in the part of [b] that is read, the
    similarity is NaN. *)
Theorem cosineSim_NaN_component (a b : list float32) :
  (length a <= length b)%nat ->
  In S754_nan a \/ In S754_nan (firstn (length a) b) ->
  cosineSim a b = Some S754_nan.
Proof.
  intros Hlen Hnan. rewrite (cosineSim_defined a b Hlen). f_equal.
  unfold truncated_cosine, cosine_formula.
  rewrite Nat.min_l by assumption. rewrite firstn_all.
  destruct Hnan as [Ha | Hb].
  - unfold sum_squares at 1.
    rewrite (fold_squares_nan_component a float32.zero Ha), sqrt_nan.
    simpl float32.mul. apply float32_div_nan_r.
  - unfold sum_squares at 2.
    rewrite (fold_squares_nan_component _ float32.zero Hb), sqrt_nan.
    rewrite float32_mul_nan_r. apply float32_div_nan_r.
Qed.

Lemma cosineSim_NaN_component_witness :
  cosineSim [float32.of_Z 1; S754_nan] (vec [1; 2; 3]) = Some S754_nan.
Proof.
  apply (cosineSim_NaN_component [float32.of_Z 1; S754_nan] (vec [1; 2; 3])).
  - simpl. lia.
  - left. simpl. auto.
Defined.

(** Negative and not a zero: a negative number or [-Inf]. *)
Definition below_zero (x : spec_float) : bool :=
  match x with
  | S754_infinity true | S754_finite true _ _ => true
  | _ => false
  end.

Lemma binary_round_aux_not_below_zero (prec emax mx ex : Z) (lx : location) :
  below_zero (binary_round_aux prec emax false mx ex lx) = false.
Proof.
  unfold binary_round_aux.
  destruct (shr_fexp prec emax mx ex lx) as [mrs' e'].
  destruct (shr_fexp prec emax _ e' loc_Exact) as [mrs'' e''].
  destruct (shr_m mrs''); try reflexivity.
  now destruct (e'' <=? emax - prec).
Qed.

Lemma binary_round_not_below_zero (prec emax : Z) (mx : positive) (ex : Z) :
  below_zero (binary_round prec emax false mx ex) = false.
Proof.
  unfold binary_round.
  destruct (shl_align mx ex _) as [mz ez].
  apply binary_round_aux_not_below_zero.
Qed.

Lemma math_Sqrt_not_below_zero (y : spec_float) :
  below_zero (math_Sqrt y) = false.
Proof.
  unfold math_Sqrt, SFsqrt.
  destruct y as [s|[|]| |[|] m e]; try reflexivity.
  destruct (SFsqrt_core_binary 53 1024 (Z.pos m) e) as [[mz ez] lz].
  apply binary_round_aux_not_below_zero.
Qed.

(** X7.  [sqrt] never returns a negative number or [-Inf]: its result is
    NaN, a zero, [+Inf] or a positive number, whatever its argument. *)
Theorem sqrt_not_below_zero (x : float32) : below_zero (sqrt x) = false.
Proof.
  unfold sqrt.
  pose proof (math_Sqrt_not_below_zero (float32.to_float64 x)) as H.
  destruct (math_Sqrt (float32.to_float64 x)) as [s|[|]| |[|] m e];
    try reflexivity; try discriminate.
  apply binary_round_not_below_zero.
Qed.

(* ================================================================== *)
(** ** Further properties of chunkText *)

Lemma string_length_append (s t : string) :
  String.length (s ++ t)%string = (String.length s + String.length t)%nat.
Proof. induction s as [|c s IH]; simpl; [reflexivity | now rewrite IH]. Qed.


(** Joining more words never gives a shorter string. *)
Lemma Join_prefix_length (l1 l2 : list string) (sep : string) :
  len_string (strings.Join l1 sep) <= len_string (strings.Join (l1 ++ l2) sep).
Proof.
  unfold len_string.
  destruct l2 as [|y l2]; [rewrite app_nil_r; lia|].
  destruct l1 as [|x l1]; [simpl strings.Join at 1; simpl String.length; lia|].
  rewrite Join_app by discriminate.
  rewrite !string_length_append. lia.
Qed.

Lemma concat_nonempty_length {A : Type} (gs : list (list A)) :
  Forall (fun g => g <> []) gs -> (length gs <= length (concat gs))%nat.
Proof.
  induction 1 as [|g gs Hg _ IH]; simpl; [lia|].
  rewrite length_app. destruct g; [congruence | simpl; lia].
Qed.

Lemma concat_nonempty_nil {A : Type} (gs : list (list A)) :
  Forall (fun g => g <> []) gs -> concat gs = [] -> gs = [].
Proof.
  intros Hne Hnil. apply concat_nonempty_length in Hne.
  rewrite Hnil in Hne. destruct gs; [reflexivity | simpl in Hne; lia].
Qed.

(** X8.  [chunkText] returns no fragment exactly when the text has no word,
    and never more fragments than the text has words, for every [maxLen]
    (positive or not). *)
Theorem chunkText_fragment_count (Fields : string -> list string)
    (text : string) (maxLen : Z) :
  (chunkText Fields text maxLen = [] <-> Fields text = []) /\
  (length (chunkText Fields text maxLen) <= length (Fields text))%nat.
Proof.
  destruct (Z.le_gt_cases maxLen 0) as [Hle | Hpos].
  - unfold chunkText. apply Z.leb_le in Hle. rewrite Hle.
    split; [reflexivity | lia].
  - destruct (chunkText_groups Fields text maxLen) as (gs & -> & <- & Hgood);
      [lia|].
    apply good_group_nonempty in Hgood.
    rewrite length_map. split; [split|].
    + intros Hnil. apply map_eq_nil in Hnil. now subst gs.
    + intros Hnil. now rewrite (concat_nonempty_nil gs Hgood Hnil).
    + now apply concat_nonempty_length.
Qed.

Lemma Z_gtb_true (x y : Z) : (x >? y) = true -> y < x.
Proof. rewrite Z.gtb_ltb. apply Z.ltb_lt. Qed.

Section ChunkTextGreedy.

Variable maxLen : Z.

(** The groups from the last one back to the first: each group starts with
    the word that did not fit behind the group closed before it. *)
Fixpoint greedy_rev (rgroups : list (list string)) : Prop :=
  match rgroups with
  | [] => True
  | cur :: rest =>
      match rest with
      | [] => True
      | prev :: _ =>
          (exists w tl, cur = w :: tl /\
                        maxLen < len_string (join_words (prev ++ [w]))) /\
          greedy_rev rest
      end
  end.

(** The loop invariant for the greedy cut: as [chunk_inv], and the groups
    with the buffer as the last of them satisfy [greedy_rev]. *)
Definition greedy_inv (done : list string)
    (st : list string * list string) : Prop :=
  exists gs : list (list string),
    fst st = map join_words gs /\
    concat gs ++ snd st = done /\
    Forall (fun g => g <> []) gs /\
    (snd st = [] -> gs = []) /\
    greedy_rev (snd st :: rev gs).

Lemma greedy_inv_init : greedy_inv [] ([], []).
Proof. exists []. simpl. auto. Qed.

Lemma greedy_inv_step done st word :
  greedy_inv done st ->
  greedy_inv (done ++ [word]) (chunkText_step maxLen st word).
Proof.
  destruct st as [chunks buf].
  intros (gs & Hchunks & Hdone & Hne & Hfirst & Hgreedy). simpl in *.
  unfold chunkText_step.
  destruct ((len_string (strings.Join (buf ++ [word]) " ") >? maxLen)
            && (len buf >? 0)) eqn:Hcond.
  - apply andb_prop in Hcond. destruct Hcond as [Hlong Hbuf].
    apply Z_gtb_true in Hlong.
    assert (Hbuf_ne : buf <> []) by (intros ->; discriminate).
    exists (gs ++ [buf]). simpl. repeat split.
    + now rewrite map_app, Hchunks.
    + rewrite concat_app. simpl. rewrite app_nil_r, <- Hdone.
      now rewrite <- app_assoc.
    + apply Forall_app. split; [assumption | now constructor].
    + discriminate.
    + rewrite rev_app_distr. simpl. split; [|exact Hgreedy].
      now exists word, [].
  - exists gs. simpl. repeat split; auto.
    + now rewrite <- Hdone, app_assoc.
    + intros Hnil. now destruct buf.
    + destruct (rev gs) as [|prev r] eqn:Hrev; [exact I|].
      destruct Hgreedy as [(w & tl & -> & Hlong) Hrest].
      split; [|exact Hrest].
      now exists w, (tl ++ [word]).
Qed.

Lemma greedy_inv_loop words :
  forall done st,
    greedy_inv done st ->
    greedy_inv (done ++ words) (chunkText_loop maxLen words st).
Proof.
  induction words as [|word words IH]; intros done st Hinv; simpl.
  - now rewrite app_nil_r.
  - replace (done ++ word :: words) with ((done ++ [word]) ++ words)
      by (now rewrite <- app_assoc).
    apply IH. now apply greedy_inv_step.
Qed.

Lemma greedy_rev_inside (l r : list (list string)) (cur prev : list string) :
  greedy_rev (l ++ cur :: prev :: r) ->
  exists w tl, cur = w :: tl /\
               maxLen < len_string (join_words (prev ++ [w])).
Proof.
  induction l as [|x l IH]; simpl.
  - now intros [H _].
  - destruct (l ++ cur :: prev :: r) as [|y rest] eqn:Hl.
    + now destruct l.
    + intros [_ Hrest]. now apply IH.
Qed.

End ChunkTextGreedy.

(** A fragment is closed only when the next word does not fit: for two
    consecutive groups, the first one with the first word of the second is
    longer than [maxLen]. *)
Definition closed_when_full (maxLen : Z) (groups : list (list string)) : Prop :=
  forall l1 g w g' l2,
    groups = l1 ++ g :: (w :: g') :: l2 ->
    maxLen < len_string (join_words (g ++ [w])).

(** For a positive [maxLen]: the grouping behind the result of [chunkText],
    with the greedy property. *)
Lemma chunkText_greedy_groups (Fields : string -> list string) (text : string)
    (maxLen : Z) :
  0 < maxLen ->
  exists gs : list (list string),
    chunkText Fields text maxLen = map join_words gs /\
    concat gs = Fields text /\
    Forall (fun g => g <> []) gs /\
    closed_when_full maxLen gs.
Proof.
  intros Hpos. unfold chunkText.
  destruct (maxLen <=? 0) eqn:Hle; [apply Z.leb_le in Hle; lia|].
  destruct (len (Fields text) =? 0) eqn:Hwords.
  - exists []. repeat split; auto.
    + apply Z.eqb_eq in Hwords. unfold len in Hwords.
      destruct (Fields text); [reflexivity | simpl in Hwords; lia].
    + intros l1 g w g' l2 H. now destruct l1.
  - pose proof (greedy_inv_loop maxLen (Fields text) [] ([], [])
                  (greedy_inv_init maxLen)) as Hinv.
    simpl in Hinv.
    destruct (chunkText_loop maxLen (Fields text) ([], [])) as [chunks buf].
    destruct Hinv as (gs & Hchunks & Hdone & Hne & Hfirst & Hgreedy).
    cbn [fst snd] in *.
    destruct buf as [|w0 buf].
    + rewrite (Hfirst eq_refl) in *. exists []. simpl in *.
      repeat split; auto.
      intros l1 g w g' l2 H. now destruct l1.
    + exists (gs ++ [w0 :: buf]). repeat split.
      * unfold len. simpl length. rewrite map_app, Hchunks. reflexivity.
      * rewrite concat_app. simpl. now rewrite app_nil_r.
      * apply Forall_app. split; [assumption | now constructor].
      * intros l1 g w g' l2 Heq.
        assert (Hrev : (w0 :: buf) :: rev gs =
                       rev l2 ++ (w :: g') :: g :: rev l1).
        { change ((w0 :: buf) :: rev gs) with (rev [w0 :: buf] ++ rev gs).
          rewrite <- rev_app_distr, Heq, rev_app_distr. simpl.
          now rewrite <- !app_assoc. }
        rewrite Hrev in Hgreedy.
        destruct (greedy_rev_inside maxLen _ _ _ _ Hgreedy)
          as (w' & tl & Hw & Hlong).
        now injection Hw as <- _.
Qed.

(** X9.  For a positive [maxLen] the cut is greedy: a fragment is closed
    only when the next word does not fit behind it.  For two consecutive
    fragments, the first one, a space and the first word of the second are
    longer than [maxLen] together. *)
Theorem chunkText_closes_when_full (Fields : string -> list string)
    (text : string) (maxLen : Z) :
  0 < maxLen ->
  exists groups : list (list string),
    chunkText Fields text maxLen = map join_words groups /\
    concat groups = Fields text /\
    forall l1 g w g' l2,
      groups = l1 ++ g :: (w :: g') :: l2 ->
      maxLen < len_string (join_words g) + 1 + len_string w.
Proof.
  intros Hpos.
  destruct (chunkText_greedy_groups Fields text maxLen Hpos)
    as (gs & Hchunks & Hwords & Hne & Hfull).
  exists gs. repeat split; auto.
  intros l1 g w g' l2 Heq.
  pose proof (Hfull l1 g w g' l2 Heq) as Hlong.
  assert (Hg : g <> []).
  { rewrite Forall_forall in Hne. apply Hne. rewrite Heq.
    apply in_or_app. right. now left. }
  unfold join_words in *. rewrite Join_app in Hlong by (auto; discriminate).
  unfold len_string in *. rewrite !string_length_append in Hlong.
  simpl in Hlong. lia.
Qed.

Lemma chunkText_closes_when_full_witness :
  exists groups : list (list string),
    chunkText strings.Fields "abc def ghi" 7 = map join_words groups /\
    concat groups = strings.Fields "abc def ghi" /\
    forall l1 g w g' l2,
      groups = l1 ++ g :: (w :: g') :: l2 ->
      7 < len_string (join_words g) + 1 + len_string w.
Proof.
  apply (chunkText_closes_when_full strings.Fields "abc def ghi" 7). lia.
Defined.

(** A text that fits in [maxLen] once normalized is not cut. *)
Lemma chunkText_single_fragment (Fields : string -> list string)
    (text : string) (maxLen : Z) :
  0 < maxLen ->
  Fields text <> [] ->
  len_string (strings.Join (Fields text) " ") <= maxLen ->
  chunkText Fields text maxLen = [strings.Join (Fields text) " "].
Proof.
  intros Hpos Hwords Hfits.
  destruct (chunkText_greedy_groups Fields text maxLen Hpos)
    as (gs & Hchunks & Hconcat & Hne & Hfull).
  rewrite Hchunks.
  destruct gs as [|g [|g2 rest]].
  - simpl in Hconcat. congruence.
  - simpl in Hconcat. rewrite app_nil_r in Hconcat. now subst g.
  - exfalso.
    assert (Hg2 : g2 <> []).
    { inversion Hne as [|? ? _ Hrest]; subst. now inversion Hrest. }
    destruct g2 as [|w tl]; [congruence|].
    pose proof (Hfull [] g w tl rest eq_refl) as Hlong.
    assert (Hprefix : Fields text = (g ++ [w]) ++ (tl ++ concat rest)).
    { rewrite <- Hconcat. simpl. now rewrite <- !app_assoc. }
    pose proof (Join_prefix_length (g ++ [w]) (tl ++ concat rest) " ") as Hle.
    rewrite <- Hprefix in Hle. unfold join_words in Hlong. lia.
Qed.


(** X10.  For a positive [maxLen], a text with at least one word whose
    normalized form is at most [maxLen] bytes long comes back as one
    fragment, the normalized text. *)
Theorem chunkText_short_text_unsplit (Fields : string -> list string)
    (text : string) (maxLen : Z) :
  0 < maxLen ->
  Fields text <> [] ->
  len_string (normalize_whitespace Fields text) <= maxLen ->
  chunkText Fields text maxLen = [normalize_whitespace Fields text].
Proof. apply chunkText_single_fragment. Qed.

Lemma chunkText_short_text_unsplit_witness :
  chunkText strings.Fields " hello   world " 20 =
  [normalize_whitespace strings.Fields " hello   world "].
Proof.
  apply (chunkText_short_text_unsplit strings.Fields " hello   world " 20).
  - lia.
  - discriminate.
  - vm_compute. discriminate.
Defined.

(* ------------------------------------------------------------------ *)
(** *** Tokenizing a fragment again *)












(* ================================================================== *)
(** ** decodeCaesarCipher

    The function reads its text rune by rune ([for _, char := range text])
    and appends runes to a [strings.Builder].  A text is modelled by the
    sequence of runes that [range] yields, and the result by the sequence of
    runes that [WriteRune] appends; the UTF-8 coding between bytes and runes
    is the library's. *)

(** Go's [rune] is [int32]; [int] has 64 bits on the platforms of the
    Dockerfile. *)
Definition rune : Type := Z.

(** The value of a signed integer of [bits] bits after wrap-around. *)
Definition wrap (bits : Z) (z : Z) : Z :=
  (z + 2 ^ (bits - 1)) mod 2 ^ bits - 2 ^ (bits - 1).

Definition int32 (z : Z) : Z := wrap 32 z.
Definition int64 (z : Z) : Z := wrap 64 z.

(** The rune of an ASCII character constant. *)
Definition chr (c : ascii) : rune := Z.of_N (N_of_ascii c).

Module utf8.

(** [utf8.RuneError], U+FFFD. *)
Definition RuneError : rune := 65533.

(** [utf8.ValidRune]: a code point up to U+10FFFF outside the surrogates
    U+D800 to U+DFFF. *)
Definition ValidRune (r : rune) : bool :=
  ((0 <=? r) && (r <? 55296)) || ((57343 <? r) && (r <=? 1114111)).

End utf8.

(** [result.WriteRune(r)]: a rune that is not valid is written as
    [utf8.RuneError]. *)
Definition WriteRune (result : list rune) (r : rune) : list rune :=
  result ++ [if utf8.ValidRune r then r else utf8.RuneError].

(** [((int(char-base) - shift + 26) % 26) + int(base)], with [base] the
    letter 'A' or 'a'.  [%] is Go's remainder, of the sign of the dividend. *)
Definition decoded (base char : rune) (shift : Z) : Z :=
  int64 (Z.rem (int64 (int64 (int32 (char - base) - shift) + 26)) 26 + base).

(** The body of the loop. *)
Definition decodeCaesarCipher_step (shift : Z) (result : list rune)
    (char : rune) : list rune :=
  if (chr "A" <=? char) && (char <=? chr "Z") then
    WriteRune result (int32 (decoded (chr "A") char shift))
  else if (chr "a" <=? char) && (char <=? chr "z") then
    WriteRune result (int32 (decoded (chr "a") char shift))
  else
    WriteRune result char.

Definition decodeCaesarCipher (text : list rune) (shift : Z) : list rune :=
  fold_left (decodeCaesarCipher_step shift) text [].

(** The runes of an ASCII string, for writing examples. *)
Definition runes (s : string) : list rune := map chr (list_ascii_of_string s).

Example decodeCaesarCipher_hello :
  decodeCaesarCipher (runes "Khoor, Zruog! 123") 3 = runes "Hello, World! 123".
Proof. reflexivity. Qed.

(** *** What the function is meant to compute *)

Definition is_upper (c : rune) : bool := (65 <=? c) && (c <=? 90).
Definition is_lower (c : rune) : bool := (97 <=? c) && (c <=? 122).

(** The letter [shift] places before [c] in its alphabet, going round from
    'A' to 'Z' (from 'a' to 'z'); any other rune is left as it is. *)
Definition shift_back (shift : Z) (c : rune) : rune :=
  if is_upper c then 65 + (c - 65 - shift) mod 26
  else if is_lower c then 97 + (c - 97 - shift) mod 26
  else c.

(** A rune that [range] can yield. *)
Definition valid_text (text : list rune) : Prop :=
  Forall (fun c => utf8.ValidRune c = true) text.

(** The shifts for which no intermediate value leaves the range of [int] or
    goes below zero: at most 26, and not absurdly negative. *)
Definition shift_in_range (shift : Z) : Prop := - 2 ^ 62 <= shift <= 26.

(* ------------------------------------------------------------------ *)

Lemma int32_small (z : Z) : - 2 ^ 31 <= z < 2 ^ 31 -> int32 z = z.
Proof.
  unfold int32, wrap. change (2 ^ (32 - 1)) with (2 ^ 31).
  intros H. rewrite Z.mod_small; lia.
Qed.

Lemma int64_small (z : Z) : - 2 ^ 63 <= z < 2 ^ 63 -> int64 z = z.
Proof.
  unfold int64, wrap. change (2 ^ (64 - 1)) with (2 ^ 63).
  intros H. rewrite Z.mod_small; lia.
Qed.

(** The rune that one round of the loop appends. *)
Definition decoded_rune (shift : Z) (c : rune) : rune :=
  match decodeCaesarCipher_step shift [] c with
  | [d] => d
  | _ => c
  end.

Lemma decodeCaesarCipher_step_append (shift : Z) (acc : list rune) (c : rune) :
  decodeCaesarCipher_step shift acc c = acc ++ [decoded_rune shift c].
Proof.
  unfold decoded_rune, decodeCaesarCipher_step, WriteRune.
  destruct ((chr "A" <=? c) && (c <=? chr "Z"));
    [|destruct ((chr "a" <=? c) && (c <=? chr "z"))];
    cbn [app]; reflexivity.
Qed.

Lemma fold_decodeCaesarCipher_step (text : list rune) (shift : Z) :
  forall acc,
    fold_left (decodeCaesarCipher_step shift) text acc =
    acc ++ map (decoded_rune shift) text.
Proof.
  induction text as [|c text IH]; intros acc; cbn [fold_left map].
  - now rewrite app_nil_r.
  - rewrite IH, decodeCaesarCipher_step_append.
    now rewrite <- app_assoc.
Qed.

Lemma decodeCaesarCipher_map (text : list rune) (shift : Z) :
  decodeCaesarCipher text shift = map (decoded_rune shift) text.
Proof.
  unfold decodeCaesarCipher. rewrite fold_decodeCaesarCipher_step.
  reflexivity.
Qed.

(** With a shift in range the arithmetic of the source is the arithmetic
    modulo 26. *)
Lemma decoded_in_range (base char : rune) (shift : Z) :
  shift_in_range shift ->
  0 <= char - base <= 25 -> 0 <= base <= 1000 ->
  int32 (decoded base char shift) = base + (char - base - shift) mod 26.
Proof.
  unfold shift_in_range, decoded. intros Hshift Hchar Hbase.
  assert (H62 : 2 ^ 62 = 4611686018427387904) by reflexivity.
  assert (H63 : 2 ^ 63 = 9223372036854775808) by reflexivity.
  assert (H31 : 2 ^ 31 = 2147483648) by reflexivity.
  rewrite (int32_small (char - base)) by lia.
  rewrite (int64_small (char - base - shift)) by lia.
  rewrite (int64_small (char - base - shift + 26)) by lia.
  rewrite Z.rem_mod_nonneg by lia.
  replace ((char - base - shift + 26) mod 26)
    with ((char - base - shift) mod 26)
    by (rewrite <- (Z.mod_add (char - base - shift) 1 26) by lia;
        f_equal; lia).
  pose proof (Z.mod_pos_bound (char - base - shift) 26 ltac:(lia)) as Hmod.
  rewrite int64_small by lia.
  rewrite int32_small by lia. lia.
Qed.

Lemma decodeCaesarCipher_step_in_range (shift : Z) (c : rune) :
  shift_in_range shift ->
  utf8.ValidRune c = true ->
  decodeCaesarCipher_step shift [] c = [shift_back shift c].
Proof.
  intros Hshift Hvalid.
  unfold decodeCaesarCipher_step, shift_back, is_upper, is_lower, WriteRune.
  change (chr "A") with 65. change (chr "Z") with 90.
  change (chr "a") with 97. change (chr "z") with 122.
  destruct ((65 <=? c) && (c <=? 90)) eqn:Hup.
  - apply andb_prop in Hup. destruct Hup as [H1 H2].
    apply Z.leb_le in H1, H2.
    rewrite decoded_in_range by (auto; lia).
    pose proof (Z.mod_pos_bound (c - 65 - shift) 26 ltac:(lia)) as Hmod.
    cbn [app].
    replace (utf8.ValidRune (65 + (c - 65 - shift) mod 26)) with true;
      [reflexivity|].
    symmetry. unfold utf8.ValidRune. apply orb_true_intro. left.
    apply andb_true_intro. split; [apply Z.leb_le | apply Z.ltb_lt]; lia.
  - destruct ((97 <=? c) && (c <=? 122)) eqn:Hlow.
    + apply andb_prop in Hlow. destruct Hlow as [H1 H2].
      apply Z.leb_le in H1, H2.
      rewrite decoded_in_range by (auto; lia).
      pose proof (Z.mod_pos_bound (c - 97 - shift) 26 ltac:(lia)) as Hmod.
      cbn [app].
      replace (utf8.ValidRune (97 + (c - 97 - shift) mod 26)) with true;
        [reflexivity|].
      symmetry. unfold utf8.ValidRune. apply orb_true_intro. left.
      apply andb_true_intro. split; [apply Z.leb_le | apply Z.ltb_lt]; lia.
    + cbn [app]. now rewrite Hvalid.
Qed.

Lemma decodeCaesarCipher_in_range (text : list rune) (shift : Z) :
  shift_in_range shift -> valid_text text ->
  decodeCaesarCipher text shift = map (shift_back shift) text.
Proof.
  intros Hshift Hvalid. rewrite decodeCaesarCipher_map.
  apply map_ext_in. intros c Hc.
  unfold valid_text in Hvalid. rewrite Forall_forall in Hvalid.
  unfold decoded_rune.
  now rewrite decodeCaesarCipher_step_in_range by auto.
Qed.

Lemma shift_back_upper (shift : Z) (c : rune) :
  is_upper c = true ->
  shift_back shift c = 65 + (c - 65 - shift) mod 26 /\
  is_upper (shift_back shift c) = true.
Proof.
  intros Hc. unfold shift_back. rewrite Hc. split; [reflexivity|].
  pose proof (Z.mod_pos_bound (c - 65 - shift) 26 ltac:(lia)) as Hmod.
  unfold is_upper. apply andb_true_intro.
  split; apply Z.leb_le; lia.
Qed.

Lemma is_upper_not_lower (c : rune) : is_upper c = true -> is_lower c = false.
Proof.
  unfold is_upper, is_lower. intros H. apply andb_prop in H.
  destruct H as [_ H]. apply Z.leb_le in H.
  apply andb_false_intro1. apply Z.leb_gt. lia.
Qed.

Lemma shift_back_lower (shift : Z) (c : rune) :
  is_lower c = true ->
  shift_back shift c = 97 + (c - 97 - shift) mod 26 /\
  is_lower (shift_back shift c) = true.
Proof.
  intros Hc. unfold shift_back. rewrite Hc.
  assert (Hup : is_upper c = false).
  { destruct (is_upper c) eqn:Hup; [|reflexivity].
    apply is_upper_not_lower in Hup. congruence. }
  rewrite Hup. split; [reflexivity|].
  pose proof (Z.mod_pos_bound (c - 97 - shift) 26 ltac:(lia)) as Hmod.
  unfold is_lower. apply andb_true_intro.
  split; apply Z.leb_le; lia.
Qed.

Lemma shift_back_other (shift : Z) (c : rune) :
  is_upper c = false -> is_lower c = false -> shift_back shift c = c.
Proof. intros Hup Hlow. unfold shift_back. now rewrite Hup, Hlow. Qed.

(** Shifting back keeps the kind of a rune: upper-case letter, lower-case
    letter, or neither. *)
Lemma shift_back_kind (shift : Z) (c : rune) :
  is_upper (shift_back shift c) = is_upper c /\
  is_lower (shift_back shift c) = is_lower c.
Proof.
  destruct (is_upper c) eqn:Hup.
  - destruct (shift_back_upper shift c Hup) as [_ H].
    split; [assumption|].
    now rewrite (is_upper_not_lower _ H), (is_upper_not_lower _ Hup).
  - destruct (is_lower c) eqn:Hlow.
    + destruct (shift_back_lower shift c Hlow) as [_ H].
      split; [|assumption].
      destruct (is_upper (shift_back shift c)) eqn:Hup'; [|reflexivity].
      apply is_upper_not_lower in Hup'. congruence.
    + rewrite shift_back_other by assumption. now split.
Qed.

Lemma shift_back_valid (shift : Z) (c : rune) :
  utf8.ValidRune c = true -> utf8.ValidRune (shift_back shift c) = true.
Proof.
  intros Hvalid.
  destruct (is_upper c) eqn:Hup; [|destruct (is_lower c) eqn:Hlow].
  - destruct (shift_back_upper shift c Hup) as [_ H].
    unfold is_upper in H. apply andb_prop in H. destruct H as [H1 H2].
    apply Z.leb_le in H1, H2.
    unfold utf8.ValidRune. apply orb_true_intro. left.
    apply andb_true_intro. split; [apply Z.leb_le | apply Z.ltb_lt]; lia.
  - destruct (shift_back_lower shift c Hlow) as [_ H].
    unfold is_lower in H. apply andb_prop in H. destruct H as [H1 H2].
    apply Z.leb_le in H1, H2.
    unfold utf8.ValidRune. apply orb_true_intro. left.
    apply andb_true_intro. split; [apply Z.leb_le | apply Z.ltb_lt]; lia.
  - now rewrite shift_back_other.
Qed.

(** Two shifts in a row are one shift by their sum. *)
Lemma shift_back_add (s1 s2 : Z) (c : rune) :
  shift_back s2 (shift_back s1 c) = shift_back (s1 + s2) c.
Proof.
  destruct (is_upper c) eqn:Hup; [|destruct (is_lower c) eqn:Hlow].
  - destruct (shift_back_upper s1 c Hup) as [E1 H1].
    destruct (shift_back_upper s2 _ H1) as [E2 _].
    destruct (shift_back_upper (s1 + s2) c Hup) as [E3 _].
    rewrite E2, E3, E1. f_equal.
    replace (65 + (c - 65 - s1) mod 26 - 65 - s2)
      with ((c - 65 - s1) mod 26 - s2) by lia.
    rewrite Zminus_mod_idemp_l. f_equal. lia.
  - destruct (shift_back_lower s1 c Hlow) as [E1 H1].
    destruct (shift_back_lower s2 _ H1) as [E2 _].
    destruct (shift_back_lower (s1 + s2) c Hlow) as [E3 _].
    rewrite E2, E3, E1. f_equal.
    replace (97 + (c - 97 - s1) mod 26 - 97 - s2)
      with ((c - 97 - s1) mod 26 - s2) by lia.
    rewrite Zminus_mod_idemp_l. f_equal. lia.
  - now rewrite !shift_back_other by (rewrite ?shift_back_other; assumption).
Qed.


Lemma valid_text_shift_back (shift : Z) (text : list rune) :
  valid_text text -> valid_text (map (shift_back shift) text).
Proof.
  unfold valid_text. intros H. apply Forall_map.
  eapply Forall_impl; [|exact H]. intros c. apply shift_back_valid.
Qed.

(** X14.  With a shift of at most 26 (and no overflow of [int]),
    [decodeCaesarCipher] moves every letter that many places back in its
    alphabet, going round at the first letter, and leaves every other rune
    as it is; the result has as many runes as the text, upper-case letters
    stay upper-case and lower-case letters stay lower-case. *)
Theorem decodeCaesarCipher_shifts_back (text : list rune) (shift : Z) :
  shift_in_range shift -> valid_text text ->
  decodeCaesarCipher text shift = map (shift_back shift) text /\
  length (decodeCaesarCipher text shift) = length text /\
  Forall2 (fun c d => is_upper d = is_upper c /\ is_lower d = is_lower c)
          text (decodeCaesarCipher text shift).
Proof.
  intros Hshift Hvalid.
  rewrite decodeCaesarCipher_in_range by assumption.
  repeat split.
  - apply length_map.
  - clear Hvalid. induction text as [|c text IH]; simpl; constructor; auto.
    apply shift_back_kind.
Qed.

Lemma decodeCaesarCipher_shifts_back_witness :
  decodeCaesarCipher (runes "Khoor, Zruog!") 3 =
    map (shift_back 3) (runes "Khoor, Zruog!") /\
  length (decodeCaesarCipher (runes "Khoor, Zruog!") 3) =
    length (runes "Khoor, Zruog!") /\
  Forall2 (fun c d => is_upper d = is_upper c /\ is_lower d = is_lower c)
          (runes "Khoor, Zruog!")
          (decodeCaesarCipher (runes "Khoor, Zruog!") 3).
Proof.
  apply (decodeCaesarCipher_shifts_back (runes "Khoor, Zruog!") 3).
  - unfold shift_in_range. split; [vm_compute; discriminate | lia].
  - repeat constructor.
Defined.

(** X15.  Decoding twice is decoding once by the sum of the shifts, as long
    as the two shifts and their sum are in range. *)
Theorem decodeCaesarCipher_compose (text : list rune) (s1 s2 : Z) :
  shift_in_range s1 -> shift_in_range s2 -> shift_in_range (s1 + s2) ->
  valid_text text ->
  decodeCaesarCipher (decodeCaesarCipher text s1) s2 =
  decodeCaesarCipher text (s1 + s2).
Proof.
  intros H1 H2 H12 Hvalid.
  rewrite (decodeCaesarCipher_in_range text s1) by assumption.
  rewrite decodeCaesarCipher_in_range
    by (auto using valid_text_shift_back).
  rewrite (decodeCaesarCipher_in_range text (s1 + s2)) by assumption.
  rewrite map_map. apply map_ext. intros c. apply shift_back_add.
Qed.

Lemma decodeCaesarCipher_compose_witness :
  decodeCaesarCipher (decodeCaesarCipher (runes "Khoor") 1) 2 =
  decodeCaesarCipher (runes "Khoor") (1 + 2).
Proof.
  apply (decodeCaesarCipher_compose (runes "Khoor") 1 2);
    try (unfold shift_in_range; split; [vm_compute; discriminate | lia]).
  repeat constructor.
Defined.



(** Above 26 the shift is not reduced: for a letter fewer than
    [shift - 26] places into its alphabet the dividend of [%] is negative,
    the remainder is not positive, and the result falls 26 short. *)
Lemma decoded_above_range (base char : rune) (shift : Z) :
  26 < shift <= 2 ^ 62 ->
  0 <= char - base <= 25 -> 0 <= base <= 1000 ->
  char - base < shift - 26 ->
  (shift - (char - base)) mod 26 <> 0 ->
  int32 (decoded base char shift) =
  base + (char - base - shift) mod 26 - 26.
Proof.
  unfold decoded. intros Hshift Hchar Hbase Hfar Hrem.
  assert (H62 : 2 ^ 62 = 4611686018427387904) by reflexivity.
  assert (H63 : 2 ^ 63 = 9223372036854775808) by reflexivity.
  assert (H31 : 2 ^ 31 = 2147483648) by reflexivity.
  rewrite (int32_small (char - base)) by lia.
  rewrite (int64_small (char - base - shift)) by lia.
  rewrite (int64_small (char - base - shift + 26)) by lia.
  replace (char - base - shift + 26) with (- (shift - 26 - (char - base)))
    by lia.
  rewrite Z.rem_opp_l by lia.
  rewrite Z.rem_mod_nonneg by lia.
  pose proof (Z.mod_pos_bound (shift - 26 - (char - base)) 26 ltac:(lia)) as B1.
  pose proof (Z.mod_pos_bound (char - base - shift) 26 ltac:(lia)) as B2.
  pose proof (Z.mod_pos_bound (shift - (char - base)) 26 ltac:(lia)) as B3.
  pose proof (Z.div_mod (shift - 26 - (char - base)) 26 ltac:(lia)) as E1.
  pose proof (Z.div_mod (char - base - shift) 26 ltac:(lia)) as E2.
  pose proof (Z.div_mod (shift - (char - base)) 26 ltac:(lia)) as E3.
  rewrite int64_small by lia.
  rewrite int32_small by lia.
  lia.
Qed.

(** X17.  The shift is not reduced modulo 26.  For a shift above 26, a
    letter that stands fewer than [shift - 26] places into its alphabet
    ([base] is 'A' or 'a') is decoded to the rune 26 below the right letter,
    which lies before the first letter of that alphabet, unless the shift
    happens to bring it exactly onto that first letter. *)
Theorem decodeCaesarCipher_shift_above_26 (shift : Z) (base c : rune) :
  base = 65 \/ base = 97 ->
  26 < shift <= 2 ^ 62 ->
  0 <= c - base <= 25 ->
  c - base < shift - 26 ->
  (shift - (c - base)) mod 26 <> 0 ->
  decodeCaesarCipher [c] shift = [shift_back shift c - 26] /\
  shift_back shift c - 26 < base.
Proof.
  intros Hbase Hshift Hc Hfar Hrem.
  pose proof (Z.mod_pos_bound (c - base - shift) 26 ltac:(lia)) as Hmod.
  assert (Hback : shift_back shift c = base + (c - base - shift) mod 26).
  { destruct Hbase as [-> | ->].
    - apply shift_back_upper. unfold is_upper.
      apply andb_true_intro. split; apply Z.leb_le; lia.
    - apply shift_back_lower. unfold is_lower.
      apply andb_true_intro. split; apply Z.leb_le; lia. }
  split; [|lia].
  rewrite decodeCaesarCipher_map. cbn [map]. f_equal.
  unfold decoded_rune, decodeCaesarCipher_step, WriteRune.
  change (chr "A") with 65. change (chr "Z") with 90.
  change (chr "a") with 97. change (chr "z") with 122.
  assert (Hvalid : utf8.ValidRune (shift_back shift c - 26) = true).
  { unfold utf8.ValidRune. apply orb_true_intro. left.
    apply andb_true_intro.
    split; [apply Z.leb_le | apply Z.ltb_lt]; destruct Hbase; lia. }
  destruct Hbase as [-> | ->].
  - replace ((65 <=? c) && (c <=? 90)) with true
      by (symmetry; apply andb_true_intro; split; apply Z.leb_le; lia).
    rewrite decoded_above_range by (auto; lia).
    cbn [app]. rewrite <- Hback. now rewrite Hvalid.
  - replace ((65 <=? c) && (c <=? 90)) with false
      by (symmetry; apply andb_false_intro2; apply Z.leb_gt; lia).
    replace ((97 <=? c) && (c <=? 122)) with true
      by (symmetry; apply andb_true_intro; split; apply Z.leb_le; lia).
    rewrite decoded_above_range by (auto; lia).
    cbn [app]. rewrite <- Hback. now rewrite Hvalid.
Qed.

Lemma decodeCaesarCipher_shift_above_26_witness :
  decodeCaesarCipher [66] 29 = [shift_back 29 66 - 26] /\
  shift_back 29 66 - 26 < 65.
Proof.
  apply (decodeCaesarCipher_shift_above_26 29 65 66).
  - now left.
  - split; [lia | vm_compute; discriminate].
  - lia.
  - lia.
  - vm_compute. discriminate.
Defined.
